(** * Zoom attendance counter: the line normalizer, the attendance ledger,
      the report builder and the CSV export of [app.py] (Streamlit front end)
      and [zoom_attendance.py] (Tk front end), embedded shallowly.

    Layout of the development:
    - [Py]: the Python built-ins the two programs rely on ([str] as a list of
      code points, [str.strip], [str.split], [str.join], [str(int)], an
      insertion-ordered [dict], [set], [sorted], exceptions over the mutable
      attendance dict, [csv.writer]);
    - [CsvReader]: Python's [csv.reader], to read the exported text back;
    - [Codec] and [TextFile]: the codec ['utf-8-sig'] and the file object
      the export writes to;
    - [App]: the functions of [app.py];
    - [ZoomAttendance]: the functions of [zoom_attendance.py];
    - [Spec]: the line normalizer as the specification words it;
    - the properties of the specification, one section per component:
      the merge loop, the line normalizer, the attendance ledger, the
      report builder, the export and its round trip. *)

From Stdlib Require Import String Ascii.
From Stdlib Require Import List NArith Arith Bool Lia.
From Stdlib Require Import Permutation Sorted.
From Stdlib Require DecimalNat.
Import ListNotations.

Set Implicit Arguments.

(* ================================================================== *)
(** * Python built-ins *)
(* ================================================================== *)

Module Py.

(** A Python [str] is a sequence of Unicode code points; [len] counts code
    points (so [len('山田') = 2]), comparison is lexicographic on them. *)
Definition char := N.
Definition str := list char.

(** ASCII literals for examples. *)
Fixpoint u (s : string) : str :=
  match s with
  | EmptyString => []
  | String a r => N_of_ascii a :: u r
  end.

Definition LF : char := 10%N.
Definition CR : char := 13%N.

Fixpoint str_eqb (a b : str) : bool :=
  match a, b with
  | [], [] => true
  | x :: a', y :: b' => N.eqb x y && str_eqb a' b'
  | _, _ => false
  end.

(** [bool(s)] for a string: non-empty. *)
Definition truthy {A} (s : list A) : bool :=
  match s with [] => false | _ :: _ => true end.

(** [str.isspace] on one code point: the characters [str.strip()] removes. *)
Definition isspace (c : char) : bool :=
  ((9 <=? c) && (c <=? 13) || (28 <=? c) && (c <=? 32)
   || (c =? 133) || (c =? 160) || (c =? 5760)
   || (8192 <=? c) && (c <=? 8202)
   || (c =? 8232) || (c =? 8233) || (c =? 8239) || (c =? 8287)
   || (c =? 12288))%N.

Fixpoint lstrip (s : str) : str :=
  match s with
  | [] => []
  | c :: r => if isspace c then lstrip r else s
  end.

(** [s.rstrip()]: a character stays when something that is not white space
    follows it, or when it is not white space itself. *)
Fixpoint rstrip (s : str) : str :=
  match s with
  | [] => []
  | c :: r =>
      match rstrip r with
      | [] => if isspace c then [] else [c]
      | kept => c :: kept
      end
  end.

(** [s.strip()] *)
Definition strip (s : str) : str := rstrip (lstrip s).

(** Push one character on the front of the first piece. *)
Definition cons_first (c : char) (pieces : list str) : list str :=
  match pieces with
  | [] => [[c]]
  | p :: ps => (c :: p) :: ps
  end.

(** [s.split(sep)] for a one-character separator: never the empty list,
    [''.split('\n') == ['']]. *)
Fixpoint split (sep : char) (s : str) : list str :=
  match s with
  | [] => [[]]
  | c :: r => if N.eqb c sep then [] :: split sep r
              else cons_first c (split sep r)
  end.

(** [sep.join(parts)] *)
Fixpoint join (sep : str) (parts : list str) : str :=
  match parts with
  | [] => []
  | [p] => p
  | p :: ps => p ++ sep ++ join sep ps
  end.

(** [str(n)] for a non-negative [int]: its decimal digits. *)
Fixpoint digits (d : Decimal.uint) : str :=
  match d with
  | Decimal.Nil => []
  | Decimal.D0 r => 48%N :: digits r
  | Decimal.D1 r => 49%N :: digits r
  | Decimal.D2 r => 50%N :: digits r
  | Decimal.D3 r => 51%N :: digits r
  | Decimal.D4 r => 52%N :: digits r
  | Decimal.D5 r => 53%N :: digits r
  | Decimal.D6 r => 54%N :: digits r
  | Decimal.D7 r => 55%N :: digits r
  | Decimal.D8 r => 56%N :: digits r
  | Decimal.D9 r => 57%N :: digits r
  end.

Definition str_of_int (n : nat) : str := digits (Nat.to_uint n).

(** [int(s)] on a string of ASCII decimal digits; [None] stands for
    [ValueError]. *)
Fixpoint undigits (s : str) : option Decimal.uint :=
  match s with
  | [] => Some Decimal.Nil
  | c :: r =>
      match undigits r with
      | None => None
      | Some d =>
          if N.eqb c 48 then Some (Decimal.D0 d) else if N.eqb c 49 then Some (Decimal.D1 d)
          else if N.eqb c 50 then Some (Decimal.D2 d) else if N.eqb c 51 then Some (Decimal.D3 d)
          else if N.eqb c 52 then Some (Decimal.D4 d) else if N.eqb c 53 then Some (Decimal.D5 d)
          else if N.eqb c 54 then Some (Decimal.D6 d) else if N.eqb c 55 then Some (Decimal.D7 d)
          else if N.eqb c 56 then Some (Decimal.D8 d) else if N.eqb c 57 then Some (Decimal.D9 d)
          else None
      end
  end.

Definition int_of_str (s : str) : option nat :=
  match s with
  | [] => None
  | _ => option_map Nat.of_uint (undigits s)
  end.

(** ** Ordering: [<] on [str], on lists and on tuples *)

Fixpoint list_compare {A} (cmp : A -> A -> comparison) (a b : list A)
  : comparison :=
  match a, b with
  | [], [] => Eq
  | [], _ :: _ => Lt
  | _ :: _, [] => Gt
  | x :: a', y :: b' =>
      match cmp x y with
      | Eq => list_compare cmp a' b'
      | c => c
      end
  end.

Definition str_compare : str -> str -> comparison := list_compare N.compare.

(** ** [set] of strings, as used for [seen] *)

Definition set := list str.
Definition set_empty : set := [].
Definition set_contains (s : set) (x : str) : bool := existsb (str_eqb x) s.
Definition set_add (s : set) (x : str) : set :=
  if set_contains s x then s else x :: s.

(** ** [dict] from [str] to lists of [str], insertion-ordered

    Keys are unique in a Python dict; the operations below keep them so.
    A new key goes to the end, an assignment to an existing key keeps its
    position. *)

Definition dict := list (str * list str).

Fixpoint dict_get (d : dict) (k : str) : option (list str) :=
  match d with
  | [] => None
  | (k', v) :: r => if str_eqb k' k then Some v else dict_get r k
  end.

(** [k in d] *)
Definition dict_contains (d : dict) (k : str) : bool :=
  match dict_get d k with Some _ => true | None => false end.

(** [d[k] = v] *)
Fixpoint dict_set (d : dict) (k : str) (v : list str) : dict :=
  match d with
  | [] => [(k, v)]
  | (k', v') :: r =>
      if str_eqb k' k then (k', v) :: r else (k', v') :: dict_set r k v
  end.

(** [d.items()], in insertion order; [len(d)]; [bool(d)]. *)
Definition dict_items (d : dict) : list (str * list str) := d.
Definition dict_keys (d : dict) : list str := map fst d.
Definition dict_len (d : dict) : nat := length d.

(** What every dict satisfies. *)
Definition dict_wf (d : dict) : Prop := NoDup (dict_keys d).

(** [<] on the [(name, times)] tuples that [sorted(d.items())] compares:
    first the names, then (for equal names) the lists of timestamps. *)
Definition item_compare (a b : str * list str) : comparison :=
  match str_compare (fst a) (fst b) with
  | Eq => list_compare str_compare (snd a) (snd b)
  | c => c
  end.

Definition item_ltb (a b : str * list str) : bool :=
  match item_compare a b with Lt => true | _ => false end.

(** [sorted(xs)]: a stable sort that only asks [<].  On a list every stable
    sort returns the same result; this one inserts from the right. *)
Fixpoint insert {A} (ltb : A -> A -> bool) (x : A) (l : list A) : list A :=
  match l with
  | [] => [x]
  | y :: r => if ltb y x then y :: insert ltb x r else x :: y :: r
  end.

Fixpoint sorted_by {A} (ltb : A -> A -> bool) (l : list A) : list A :=
  match l with
  | [] => []
  | x :: r => insert ltb x (sorted_by ltb r)
  end.

Definition sorted (items : list (str * list str)) : list (str * list str) :=
  sorted_by item_ltb items.

(** ** Exceptions and stateful computations

    The attendance dict is one mutable object owned by the session
    ([st.session_state.attendance_data], [self.attendance_data]); a
    computation reads and mutates it and either returns or raises.  What it
    mutated before raising stays mutated. *)

Inductive exn :=
| KeyError (k : str)
| UpstreamError (message : str).

Inductive result (A : Type) :=
| Ok (a : A)
| Raise (e : exn).
Arguments Ok {A} a.
Arguments Raise {A} e.

Definition M (A : Type) : Type := dict -> result A * dict.

Definition ret {A} (a : A) : M A := fun d => (Ok a, d).

Definition bind {A B} (m : M A) (k : A -> M B) : M B :=
  fun d => match m d with
           | (Ok a, d') => k a d'
           | (Raise e, d') => (Raise e, d')
           end.

Definition raise {A} (e : exn) : M A := fun d => (Raise e, d).

(** [try: m  except Exception as e: handler(e)] *)
Definition try_except {A} (m : M A) (handler : exn -> M A) : M A :=
  fun d => match m d with
           | (Ok a, d') => (Ok a, d')
           | (Raise e, d') => handler e d'
           end.

Definition lift {A} (r : result A) : M A := fun d => (r, d).

(** [name in data] *)
Definition contains (k : str) : M bool :=
  fun d => (Ok (dict_contains d k), d).

(** [data[name] = []] *)
Definition setitem (k : str) (v : list str) : M unit :=
  fun d => (Ok tt, dict_set d k v).

(** [data[name].append(x)]: the lookup raises [KeyError] on a missing key,
    otherwise the list stored under [name] is extended in place. *)
Definition getitem_append (k : str) (x : str) : M unit :=
  fun d => match dict_get d k with
           | Some times => (Ok tt, dict_set d k (times ++ [x]))
           | None => (Raise (KeyError k), d)
           end.

(** [data.clear()] and [data = {}] *)
Definition clear_dict : M unit := fun _ => (Ok tt, []).

(** ** [csv.writer]

    The writers of the two programs differ at most in their line
    terminator; the rest is the default dialect: [delimiter=','], the
    double quote as [quotechar], [doublequote=True],
    [quoting=QUOTE_MINIMAL].  A field is quoted when it holds the
    delimiter, the quote character or a character of the line terminator
    (so, in CPython 3.11, a carriage return alone does not quote a field
    when the line terminator is a line feed); a quote inside a quoted
    field is doubled.
    A row made of one empty field is written as a pair of quotes.  Values
    that are not strings are written as [str(value)]. *)

Inductive value :=
| VStr (s : str)
| VInt (n : nat).

Definition to_str (v : value) : str :=
  match v with
  | VStr s => s
  | VInt n => str_of_int n
  end.

Definition delimiter : char := 44%N.
Definition quotechar : char := 34%N.

(** The line terminator of the default dialect [excel]. *)
Definition excel : str := [CR; LF].

Definition special (lineterminator : str) (c : char) : bool :=
  N.eqb c delimiter || N.eqb c quotechar || existsb (N.eqb c) lineterminator.

Definition needs_quotes (lineterminator : str) (f : str) : bool :=
  existsb (special lineterminator) f.

Definition double_quotes (f : str) : str :=
  flat_map (fun c => if N.eqb c quotechar then [quotechar; quotechar] else [c]) f.

Definition write_field (lineterminator : str) (f : str) : str :=
  if needs_quotes lineterminator f
  then quotechar :: double_quotes f ++ [quotechar]
  else f.

(** [writer.writerow(row)]: the text handed to the file in one [write]. *)
Definition writerow (lineterminator : str) (row : list value) : str :=
  match map to_str row with
  | [[]] => [quotechar; quotechar]
  | fields => join [delimiter] (map (write_field lineterminator) fields)
  end ++ lineterminator.

End Py.

Declare Scope py_scope.
Delimit Scope py_scope with py.
Notation "x <- m ;; k" := (Py.bind m (fun x => k))
  (at level 61, m at next level, right associativity) : py_scope.
Notation "m ;;; k" := (Py.bind m (fun _ => k))
  (at level 61, right associativity) : py_scope.

Local Open Scope py_scope.

(* ================================================================== *)
(** * Reading the exported text back *)
(* ================================================================== *)

(** Python's [csv.reader] (default dialect, not strict) run over the whole
    text of a file opened with [newline='']: the states and transitions
    are those of the reader's character automaton; the end-of-line signal
    it receives after each physical line (ended by CR, LF or CR LF) is
    folded into the CR and LF transitions.  A character is added to the
    field being read only while the field is shorter than
    [csv.field_size_limit()]; otherwise the reader raises [csv.Error]
    ([None] below). *)
Module CsvReader.
Import Py.

Inductive state :=
| START_RECORD
| START_FIELD
| IN_FIELD
| IN_QUOTED_FIELD
| QUOTE_IN_QUOTED_FIELD
| EAT_CRNL.

Record reader := mkReader {
  st : state;
  field : str;                    (* characters of the field being read *)
  fields : list str;              (* fields of the record being read *)
  records : list (list str)       (* records already returned *)
}.

Definition initial : reader :=
  {| st := START_RECORD; field := []; fields := []; records := [] |}.

(** The default of [csv.field_size_limit()]. *)
Definition field_size_limit : N := 131072.

Definition add_char (r : reader) (c : char) (next : state) : option reader :=
  if (N.of_nat (length (field r)) <? field_size_limit)%N
  then Some {| st := next; field := field r ++ [c]; fields := fields r;
               records := records r |}
  else None.

Definition save_field (r : reader) (next : state) : reader :=
  {| st := next; field := []; fields := fields r ++ [field r];
     records := records r |}.

Definition end_record (r : reader) (next : state) : reader :=
  {| st := next; field := []; fields := [];
     records := records r ++ [fields r] |}.

Definition goto (r : reader) (next : state) : reader :=
  {| st := next; field := field r; fields := fields r;
     records := records r |}.

Definition is_newline (c : char) : bool := N.eqb c CR || N.eqb c LF.

(** The state after a line break: a CR waits for the LF of a CR LF pair. *)
Definition after_newline (c : char) : state :=
  if N.eqb c CR then EAT_CRNL else START_RECORD.

Definition start_field (r : reader) (c : char) : option reader :=
  if is_newline c
  then Some (end_record (save_field r START_FIELD) (after_newline c))
  else if N.eqb c quotechar then Some (goto r IN_QUOTED_FIELD)
  else if N.eqb c delimiter then Some (save_field r START_FIELD)
  else add_char r c IN_FIELD.

Definition start_record (r : reader) (c : char) : option reader :=
  if is_newline c then Some (end_record r (after_newline c))
  else start_field r c.

Definition step (r : reader) (c : char) : option reader :=
  match st r with
  | START_RECORD => start_record r c
  | EAT_CRNL =>
      if N.eqb c LF then Some (goto r START_RECORD) else start_record r c
  | START_FIELD => start_field r c
  | IN_FIELD =>
      if is_newline c
      then Some (end_record (save_field r IN_FIELD) (after_newline c))
      else if N.eqb c delimiter then Some (save_field r START_FIELD)
      else add_char r c IN_FIELD
  | IN_QUOTED_FIELD =>
      if N.eqb c quotechar then Some (goto r QUOTE_IN_QUOTED_FIELD)
      else add_char r c IN_QUOTED_FIELD
  | QUOTE_IN_QUOTED_FIELD =>
      if N.eqb c quotechar then add_char r c IN_QUOTED_FIELD
      else if N.eqb c delimiter then Some (save_field r START_FIELD)
      else if is_newline c
      then Some (end_record (save_field r IN_FIELD) (after_newline c))
      else add_char r c IN_FIELD
  end.

(** End of input: a record that was begun is returned. *)
Definition finish (r : reader) : list (list str) :=
  match st r with
  | START_RECORD | EAT_CRNL => records r
  | _ => records r ++ [fields r ++ [field r]]
  end.

Fixpoint run (r : reader) (text : str) : option reader :=
  match text with
  | [] => Some r
  | c :: rest =>
      match step r c with
      | Some r' => run r' rest
      | None => None
      end
  end.

(** [list(csv.reader(f))] *)
Definition read (text : str) : option (list (list str)) :=
  option_map finish (run initial text).

End CsvReader.

(* ================================================================== *)
(** * The codec of the exported file *)
(* ================================================================== *)

(** The codec ['utf-8-sig'] named at line 381 of [zoom_attendance.py]
    (and at line 187 of [app.py]): the byte order mark followed by the
    UTF-8 bytes of the text.  Bytes are numbers below 256; shifts and
    masks by six bits are written as division and remainder by 64. *)
Module Codec.
Import Py.

(** A code point that can be encoded: not a surrogate, and at most
    U+10FFFF. *)
Definition scalar (c : char) : bool :=
  ((c <? 55296) || ((57343 <? c) && (c <? 1114112)))%N.

(** The bytes of one code point; [None] stands for [UnicodeEncodeError]. *)
Definition encode_char (c : char) : option (list N) :=
  (if c <? 128 then Some [c]
   else if c <? 2048 then Some [192 + c / 64; 128 + c mod 64]
   else if negb (scalar c) then None
   else if c <? 65536
   then Some [224 + c / 4096; 128 + (c / 64) mod 64; 128 + c mod 64]
   else Some [240 + c / 262144; 128 + (c / 4096) mod 64;
              128 + (c / 64) mod 64; 128 + c mod 64])%N.

(** [text.encode('utf-8')] *)
Fixpoint utf_8_encode (text : str) : option (list N) :=
  match text with
  | [] => Some []
  | c :: rest =>
      match encode_char c, utf_8_encode rest with
      | Some bytes, Some more => Some (bytes ++ more)
      | _, _ => None
      end
  end.

Definition BOM_UTF8 : list N := [239; 187; 191]%N.

(** [text.encode('utf-8-sig')] *)
Definition utf_8_sig_encode (text : str) : option (list N) :=
  option_map (app BOM_UTF8) (utf_8_encode text).

(** A continuation byte. *)
Definition continuation (b : N) : bool := ((128 <=? b) && (b <? 192))%N.

(** [data.decode('utf-8')], strict: truncated sequences, stray or missing
    continuation bytes, overlong forms, surrogates and values above
    U+10FFFF are errors ([None] stands for [UnicodeDecodeError]). *)
Fixpoint utf_8_decode (data : list N) : option str :=
  match data with
  | [] => Some []
  | b1 :: r1 =>
      (if b1 <? 128 then option_map (cons b1) (utf_8_decode r1)
       else if b1 <? 192 then None
       else if b1 <? 224 then
         match r1 with
         | b2 :: r2 =>
             let c := (b1 - 192) * 64 + (b2 - 128) in
             if continuation b2 && (128 <=? c)
             then option_map (cons c) (utf_8_decode r2)
             else None
         | _ => None
         end
       else if b1 <? 240 then
         match r1 with
         | b2 :: b3 :: r3 =>
             let c := (b1 - 224) * 4096 + (b2 - 128) * 64 + (b3 - 128) in
             if continuation b2 && continuation b3 && (2048 <=? c)
                && scalar c
             then option_map (cons c) (utf_8_decode r3)
             else None
         | _ => None
         end
       else if b1 <? 248 then
         match r1 with
         | b2 :: b3 :: b4 :: r4 =>
             let c := (b1 - 240) * 262144 + (b2 - 128) * 4096
                      + (b3 - 128) * 64 + (b4 - 128) in
             if continuation b2 && continuation b3 && continuation b4
                && (65536 <=? c) && scalar c
             then option_map (cons c) (utf_8_decode r4)
             else None
         | _ => None
         end
       else None)%N
  end.

(** [data.decode('utf-8-sig')]: a leading byte order mark is dropped. *)
Definition utf_8_sig_decode (data : list N) : option str :=
  match data with
  | 239%N :: 187%N :: 191%N :: rest => utf_8_decode rest
  | _ => utf_8_decode data
  end.

End Codec.

(** The file object of
    [open(filepath, 'w', newline='', encoding='utf-8-sig')]: the file
    starts empty (mode ['w'] truncates it); every [write] encodes its
    text as a whole before any of it reaches the file, so a text with a
    code point that cannot be encoded raises and adds nothing; the first
    [write] puts the byte order mark first; no newline is translated.
    Leaving the [with] block, by its end or by an exception, closes the
    file with what was written. *)
Module TextFile.

Record t := mkFile {
  first : bool;                   (* no [write] was made yet *)
  content : list N                (* the bytes written *)
}.

Definition open_w : t := {| first := true; content := [] |}.

(** [f.write(text)]; [None] stands for [UnicodeEncodeError]. *)
Definition write (f : t) (text : Py.str) : option t :=
  match Codec.utf_8_encode text with
  | Some bytes =>
      Some {| first := false;
              content :=
                content f ++ (if first f then Codec.BOM_UTF8 else []) ++ bytes |}
  | None => None
  end.

End TextFile.

(* ================================================================== *)
(** * The inference service, seen from the programs *)
(* ================================================================== *)

(** [client.chat.completions.create(...)] followed by
    [response.choices[0].message.content]: either an exception (network,
    authentication, quota, a malformed response) or the text returned. *)
Inductive completion :=
| Raises (e : Py.exn)
| Content (content : Py.str).

(** What the user is shown after one capture-and-merge cycle. *)
Inductive message :=
| Detected (detected new_count : nat)   (* success / status line *)
| NoNamesDetected                       (* warning *)
| ErrorMessage (e : Py.exn).            (* error *)

(* ================================================================== *)
(** * app.py *)
(* ================================================================== *)

Module App.
Import Py.

(** Lines 57-62: the loop over [names] with the set [seen] and the list
    [unique_names]. *)
Fixpoint unique_loop (names : list str) (seen : set) (unique_names : list str)
  : list str :=
  match names with
  | [] => unique_names
  | name :: rest =>
      if truthy name && negb (set_contains seen name) && (2 <=? length name)
      then unique_loop rest (set_add seen name) (unique_names ++ [name])
      else unique_loop rest seen unique_names
  end.

(** Lines 53-64: from the text of the response to the list of names. *)
Definition names_of_content (content : str) : list str :=
  let text := strip content in
  let names :=
    map strip (filter (fun line => truthy (strip line)) (split LF text)) in
  unique_loop names set_empty [].

Definition extract_names_with_openai (response : completion)
  : result (list str) :=
  match response with
  | Raises e => Raise e
  | Content content => Ok (names_of_content content)
  end.

(** Lines 136-140 of [main]: the loop over [names], on the session's
    [attendance_data]; [now] was computed once, before the loop. *)
Fixpoint merge_loop (names : list str) (now : str) (new_count : nat) : M nat :=
  match names with
  | [] => ret new_count
  | name :: rest =>
      present <- contains name ;;
      new_count <-
        (if negb present
         then setitem name [] ;;; ret (new_count + 1)
         else ret new_count) ;;
      getitem_append name now ;;;
      merge_loop rest now new_count
  end.

(** Lines 127-147 of [main]: one press of the analyse button.  [now] is
    the value [datetime.now().strftime(...)] has at line 133. *)
Definition analyze (response : completion) (now : str) : M message :=
  try_except
    (names <- lift (extract_names_with_openai response) ;;
     if truthy names then
       new_count <- merge_loop names now 0 ;;
       ret (Detected (length names) new_count)
     else ret NoNamesDetected)
    (fun e => ret (ErrorMessage e)).

(** [times[0] if times else ''] *)
Definition first_or_empty (times : list str) : str :=
  match times with
  | t :: _ => t
  | [] => []
  end.

(** Lines 155-161: the rows of the table; the three columns are the name,
    the first recorded time and the number of records. *)
Record row := mkRow {
  row_name : str;
  row_first : str;
  row_count : nat
}.

Definition table_rows (data : dict) : list row :=
  map (fun item =>
         {| row_name := fst item;
            row_first := first_or_empty (snd item);
            row_count := length (snd item) |})
      (sorted (dict_items data)).

(** Lines 153-198: the table is drawn only for a non-empty dict, otherwise
    an information line is shown. *)
Inductive view :=
| Table (rows : list row)
| NoData.

Definition render (data : dict) : view :=
  if truthy data then Table (table_rows data) else NoData.

(** Lines 171-178: the rows handed to the data frame that is written out;
    four columns, the fourth is every recorded time joined by ["; "]. *)
Definition csv_data (data : dict) : list (list value) :=
  map (fun item =>
         [VStr (fst item);
          VStr (first_or_empty (snd item));
          VInt (length (snd item));
          VStr (join (u "; ") (snd item))])
      (sorted (dict_items data)).

(** Lines 171-178: the keys of the dicts of [csv_data], which become the
    column labels of the data frame: 名前, 初回記録時刻, 記録回数,
    全記録時刻. *)
Definition columns : list value :=
  [VStr [21517; 21069];
   VStr [21021; 22238; 35352; 37682; 26178; 21051];
   VStr [35352; 37682; 22238; 25968];
   VStr [20840; 35352; 37682; 26178; 21051]]%N.

(** Lines 180-182: [csv_df.to_csv(csv_buffer, index=False)] into a text
    buffer.  pandas writes the column labels and then the rows through a
    [csv.writer] whose line terminator is [os.linesep] (a line feed on
    Linux and macOS, CR LF on Windows), the rest of the dialect being the
    default; [linesep] is that separator. *)
Definition to_csv (linesep : str) (data : dict) : str :=
  concat (map (writerow linesep) (columns :: csv_data data)).

(** Lines 194-195: the clear button. *)
Definition clear : M unit := clear_dict.

End App.

(* ================================================================== *)
(** * zoom_attendance.py *)
(* ================================================================== *)

Module ZoomAttendance.
Import Py.

(** Lines 337-342. *)
Fixpoint unique_loop (names : list str) (seen : set) (unique_names : list str)
  : list str :=
  match names with
  | [] => unique_names
  | name :: rest =>
      if truthy name && negb (set_contains seen name) && (2 <=? length name)
      then unique_loop rest (set_add seen name) (unique_names ++ [name])
      else unique_loop rest seen unique_names
  end.

(** Lines 333-344. *)
Definition names_of_content (content : str) : list str :=
  let text := strip content in
  let names :=
    map strip (filter (fun line => truthy (strip line)) (split LF text)) in
  unique_loop names set_empty [].

Definition _extract_names_with_openai (response : completion)
  : result (list str) :=
  match response with
  | Raises e => Raise e
  | Content content => Ok (names_of_content content)
  end.

(** Lines 280-284 of [_do_capture], on [self.attendance_data]. *)
Fixpoint merge_loop (names : list str) (now : str) (new_count : nat) : M nat :=
  match names with
  | [] => ret new_count
  | name :: rest =>
      present <- contains name ;;
      new_count <-
        (if negb present
         then setitem name [] ;;; ret (new_count + 1)
         else ret new_count) ;;
      getitem_append name now ;;;
      merge_loop rest now new_count
  end.

(** Lines 253-293: [_do_capture].  The screen grab and the service call
    are the [response]; the tree view is redrawn from the dict after the
    loop ([_update_list]). *)
Definition _do_capture (response : completion) (now : str) : M message :=
  try_except
    (names <- lift (_extract_names_with_openai response) ;;
     if negb (truthy names) then ret NoNamesDetected
     else
       new_count <- merge_loop names now 0 ;;
       ret (Detected (length names) new_count))
    (fun e => ret (ErrorMessage e)).

(** Lines 353-356 of [_update_list]: the rows of the tree view, tuples
    [(name, first_time, count)]. *)
Definition _update_list (data : dict) : list (str * str * nat) :=
  map (fun item =>
         let times := snd item in
         let first_time := match times with t :: _ => t | [] => [] end in
         let count := length times in
         (fst item, first_time, count))
      (sorted (dict_items data)).

(** The header row of the exported file: 名前, 初回記録時刻, 記録回数,
    全記録時刻. *)
Definition header : list value :=
  [VStr [21517; 21069];
   VStr [21021; 22238; 35352; 37682; 26178; 21051];
   VStr [35352; 37682; 22238; 25968];
   VStr [20840; 35352; 37682; 26178; 21051]]%N.

(** Lines 385-389: the data rows. *)
Definition export_rows (data : dict) : list (list value) :=
  map (fun item =>
         let times := snd item in
         let first_time := match times with t :: _ => t | [] => [] end in
         let count := length times in
         let all_times := join (u "; ") times in
         [VStr (fst item); VStr first_time; VInt count; VStr all_times])
      (sorted (dict_items data)).

(** Lines 381-389: the text of a file in which every row was written
    (header, then one row per entry), with the writer's default dialect. *)
Definition export_text (data : dict) : str :=
  concat (map (writerow excel) (header :: export_rows data)).

(** Lines 382-389, inside the [with] block: each row is handed to the file
    by its own [writerow]; the first row whose [write] raises ends the
    loop.  The boolean tells whether every row was written. *)
Fixpoint writerows (f : TextFile.t) (rows : list (list value))
  : TextFile.t * bool :=
  match rows with
  | [] => (f, true)
  | row :: rest =>
      match TextFile.write f (writerow excel row) with
      | Some f' => writerows f' rest
      | None => (f, false)
      end
  end.

(** What [export_csv] ends with; [file] is the content of the file at
    [filepath] when the handler returns ([None]: the file was not
    opened). *)
Inductive export_outcome :=
| NothingToExport                           (* warning box, no dialog *)
| ExportCancelled                           (* the file dialog was dismissed *)
| Saved (filepath : str) (file : list N)    (* information box *)
| ExportError (filepath : str) (file : option (list N)).   (* error box *)

(** Lines 361-395: [export_csv].  [filepath] is what the file dialog
    returned ([None] when dismissed); [writable] tells whether the
    operating system lets the file be opened for writing (the writes to
    an opened file are then taken to reach it).  An exception inside the
    [with] block closes the file and is caught at line 394. *)
Definition export_csv (data : dict) (filepath : option str) (writable : bool)
  : export_outcome :=
  if negb (truthy data) then NothingToExport
  else match filepath with
       | None => ExportCancelled
       | Some path =>
           if truthy path then
             if writable then
               match writerows TextFile.open_w (header :: export_rows data) with
               | (f, true) => Saved path (TextFile.content f)
               | (f, false) => ExportError path (Some (TextFile.content f))
               end
             else ExportError path None
           else ExportCancelled
       end.

(** Lines 397-405: [clear_data]; [confirmed] is the answer to the
    yes/no box, asked only when there is data. *)
Definition clear_data (confirmed : bool) : M unit :=
  fun data =>
    if negb (truthy data) then (Ok tt, data)
    else if confirmed then clear_dict data
    else (Ok tt, data).

End ZoomAttendance.

(* ================================================================== *)
(** * Specification-level definitions and proof helpers *)
(* ================================================================== *)

(** The line normalizer in the words of the specification (4.1): split on
    line breaks, trim each line, discard the empty ones and those shorter
    than two characters, keep the first occurrence of each name. *)
Module Spec.
Import Py.

Fixpoint dedup (names : list str) : list str :=
  match names with
  | [] => []
  | name :: rest =>
      name :: filter (fun other => negb (str_eqb other name)) (dedup rest)
  end.

Definition trimmed_lines (raw : str) : list str := map strip (split LF raw).

Definition acceptable (line : str) : bool :=
  truthy line && (2 <=? length line).

Definition normalize (raw : str) : list str :=
  dedup (filter (fun line => 2 <=? length line)
           (filter truthy (trimmed_lines raw))).

End Spec.

(** Position of the first occurrence of [x] (the length when absent). *)
Fixpoint index_of (x : Py.str) (l : list Py.str) : nat :=
  match l with
  | [] => 0
  | y :: r => if Py.str_eqb y x then 0 else S (index_of x r)
  end.

(** [out] lists its elements in the order of their first occurrences in
    [lines]. *)
Definition first_seen_order (out lines : list Py.str) : Prop :=
  forall i j a b,
    i < j -> nth_error out i = Some a -> nth_error out j = Some b ->
    index_of a lines < index_of b lines.

(** The times recorded for a name, none when it is not a key. *)
Definition times_of (d : Py.dict) (name : Py.str) : list Py.str :=
  match Py.dict_get d name with
  | Some times => times
  | None => []
  end.

(** One iteration of the merge loop, as a function on the dict. *)
Definition visit (now : Py.str) (d : Py.dict) (name : Py.str) : Py.dict :=
  Py.dict_set d name (times_of d name ++ [now]).

(** Number of occurrences of [name] in [names]. *)
Definition occurrences (name : Py.str) (names : list Py.str) : nat :=
  length (filter (Py.str_eqb name) names).

(** The names of [names] that are not keys of [d]. *)
Definition absent_names (d : Py.dict) (names : list Py.str) : list Py.str :=
  filter (fun name => negb (Py.dict_contains d name)) names.

(** Reading an exported file back into (name, count) pairs: the first
    record is the header, every other record has four fields, of which
    the first is the name and the third the count in decimal. *)
Fixpoint traverse {A B} (f : A -> option B) (l : list A) : option (list B) :=
  match l with
  | [] => Some []
  | x :: r =>
      match f x, traverse f r with
      | Some y, Some ys => Some (y :: ys)
      | _, _ => None
      end
  end.

Definition record_pair (record : list Py.str) : option (Py.str * nat) :=
  match record with
  | [name; _; count; _] => option_map (pair name) (Py.int_of_str count)
  | _ => None
  end.

Definition parse_export (text : Py.str) : option (list (Py.str * nat)) :=
  match CsvReader.read text with
  | Some (_ :: records) => traverse record_pair records
  | _ => None
  end.

(** The (name, count) pairs a ledger holds, in insertion order. *)
Definition ledger_pairs (data : Py.dict) : list (Py.str * nat) :=
  map (fun item => (fst item, length (snd item))) (Py.dict_items data).

(** The state the reader is in when it has read a written field. *)
Definition field_end_state (lineterminator f : Py.str) : CsvReader.state :=
  if Py.needs_quotes lineterminator f then CsvReader.QUOTE_IN_QUOTED_FIELD
  else match f with
       | [] => CsvReader.START_FIELD
       | _ :: _ => CsvReader.IN_FIELD
       end.

(** Whether a field is within the reader's field size limit. *)
Definition fits (f : Py.str) : bool :=
  (N.of_nat (length f) <=? CsvReader.field_size_limit)%N.

(** The fields of the exported rows of a ledger (the same in both
    programs). *)
Definition export_fields (data : Py.dict) : list Py.str :=
  concat (map (map Py.to_str) (ZoomAttendance.export_rows data)).

(** Whether a field holds a carriage return. *)
Definition has_CR (f : Py.str) : bool :=
  existsb (fun c => N.eqb c Py.CR) f.

(** A character the reader adds to an unquoted field. *)
Definition plain (c : Py.char) : bool :=
  negb (N.eqb c Py.delimiter || N.eqb c Py.quotechar || CsvReader.is_newline c).

(** A field that the writer, with this line terminator, leaves unquoted
    only if it holds no line break. *)
Definition line_safe (lineterminator f : Py.str) : Prop :=
  Py.needs_quotes lineterminator f = false -> forallb plain f = true.

(** Whether the text of a row can be encoded, and the rows written before
    the first row that cannot. *)
Definition row_encodable (row : list Py.value) : bool :=
  forallb Codec.scalar (Py.writerow Py.excel row).

Fixpoint encodable_prefix (rows : list (list Py.value)) : list (list Py.value) :=
  match rows with
  | [] => []
  | row :: rest =>
      if row_encodable row then row :: encodable_prefix rest else []
  end.

(** The ledger states a session can be in: it starts empty and changes
    only through the merge loops, the capture-and-merge cycles and the
    clear actions of the two programs. *)
Inductive reachable : Py.dict -> Prop :=
| reach_empty : reachable []
| reach_merge_web names now d :
    reachable d -> reachable (snd (App.merge_loop names now 0 d))
| reach_merge_gui names now d :
    reachable d -> reachable (snd (ZoomAttendance.merge_loop names now 0 d))
| reach_analyze response now d :
    reachable d -> reachable (snd (App.analyze response now d))
| reach_do_capture response now d :
    reachable d -> reachable (snd (ZoomAttendance._do_capture response now d))
| reach_clear d :
    reachable d -> reachable (snd (App.clear d))
| reach_clear_data confirmed d :
    reachable d -> reachable (snd (ZoomAttendance.clear_data confirmed d)).

(* ================================================================== *)
(** * zoom_attendance.py: the region selector and the application *)
(* ================================================================== *)

From Stdlib Require Import ZArith.

(** The class [ScreenSelector] (lines 24-93): the overlay on which the
    user drags a rectangle.  Pixel coordinates are Python integers. *)
Module ScreenSelector.

(** [(x1, y1, x2, y2)] *)
Definition region : Type := (Z * Z * Z * Z)%type.

(** [event.x], [event.y] *)
Record event := mkEvent { x : Z; y : Z }.

(** [start_x] and [start_y] are set together (both [None] until the
    first press); [rect] is the rectangle drawn on the canvas, with its
    coordinates. *)
Record selector := mkSelector {
  start : option (Z * Z);
  rect : option region
}.

(** What a handler leaves: the overlay still open, or destroyed with the
    callback called on a region or on [None]. *)
Inductive outcome :=
| Open (s : selector)
| Closed (callback_arg : option region).

(** Lines 29-31 of [__init__]. *)
Definition __init__ : selector := {| start := None; rect := None |}.

(** Lines 59-67. *)
Definition on_press (s : selector) (e : event) : outcome :=
  Open {| start := Some (x e, y e);
          rect := Some (x e, y e, x e, y e) |}.

(** Lines 69-71. *)
Definition on_drag (s : selector) (e : event) : outcome :=
  match rect s, start s with
  | Some _, Some (start_x, start_y) =>
      Open {| start := start s;
              rect := Some (start_x, start_y, x e, y e) |}
  | _, _ => Open s
  end.

(** Lines 91-93. *)
Definition cancel : outcome := Closed None.

(** Lines 73-89. *)
Definition on_release (s : selector) (e : event) : outcome :=
  match start s with
  | None => Open s
  | Some (start_x, start_y) =>
      let x1 := Z.min start_x (x e) in
      let y1 := Z.min start_y (y e) in
      let x2 := Z.max start_x (x e) in
      let y2 := Z.max start_y (y e) in
      if ((x2 - x1 <? 10) || (y2 - y1 <? 10))%Z then cancel
      else Closed (Some (x1, y1, x2, y2))
  end.

(** The bindings of lines 45-48. *)
Inductive tk_event :=
| Button_1 (e : event)
| B1_Motion (e : event)
| ButtonRelease_1 (e : event)
| Escape.

Definition dispatch (s : selector) (ev : tk_event) : outcome :=
  match ev with
  | Button_1 e => on_press s e
  | B1_Motion e => on_drag s e
  | ButtonRelease_1 e => on_release s e
  | Escape => cancel
  end.

(** The events the overlay receives, until it is destroyed. *)
Fixpoint run (s : selector) (events : list tk_event) : outcome :=
  match events with
  | [] => Open s
  | ev :: rest =>
      match dispatch s ev with
      | Open s' => run s' rest
      | Closed arg => Closed arg
      end
  end.

End ScreenSelector.

(** The class [ZoomAttendanceApp]: its state and its button handlers. *)
Module ZoomAttendanceApp.
Import Py.

(** The text of [status_var]. *)
Inductive status :=
| StatusSelectRegion            (* initial, with a client *)
| StatusSetKey                  (* initial, without a client *)
| StatusCancelled
| StatusNoNames
| StatusDetected (detected new_count : nat) (now : str)
| StatusError
| StatusExported (filepath : str)
| StatusCleared.

(** The message boxes. *)
Inductive box :=
| ErrorKeyNotSet                (* [select_and_capture], lines 213-217 *)
| ErrorSetKey                   (* [recapture], line 245 *)
| ErrorProcessing (e : exn)     (* [_do_capture], line 292 *)
| WarningNoData                 (* [export_csv], line 364 *)
| InfoSaved (filepath : str)    (* [export_csv], line 391 *)
| ErrorSaving.                  (* [export_csv], line 395 *)

(** [client] tells whether [self.client] is set; [recapture_btn] whether
    the recapture button is in state [NORMAL]. *)
Record app := mkApp {
  client : bool;
  attendance_data : dict;
  capture_region : option ScreenSelector.region;
  recapture_btn : bool;
  status_var : status
}.

(** Lines 118-122, [_init_openai_client]: [api_key] is the value of the
    environment variable, [None] when it is not set. *)
Definition _init_openai_client (api_key : option str) : bool :=
  match api_key with
  | Some key => truthy key
  | None => false
  end.

(** [s[-n:]] *)
Definition last_chars (n : nat) (s : str) : str := skipn (length s - n) s.

(** Lines 129-137 of [setup_ui]: the text of the key status label.
    The literals are 'API Key: ', 'sk-...', the notice that a key is set
    and the notice that none is. *)
Definition api_status_text (api_key : option str) : str :=
  if _init_openai_client api_key then
    let api_key := match api_key with Some key => key | None => [] end in
    let masked_key :=
      if 4 <? length api_key
      then u "sk-..." ++ last_chars 4 api_key
      else [35373; 23450; 28168; 12415]%N in
    u "API Key: " ++ masked_key
  else
    [65; 80; 73; 32; 75; 101; 121; 58; 32; 26410; 35373; 23450; 65288; 46;
     101; 110; 118; 12501; 12449; 12452; 12523; 12434; 30906; 35469; 12375;
     12390; 12367; 12384; 12373; 12356; 65289]%N.

(** Lines 100-116, [__init__], with the initial widget states of
    [setup_ui] (lines 155-160 and 176-177). *)
Definition __init__ (api_key : option str) : app :=
  let client := _init_openai_client api_key in
  {| client := client;
     attendance_data := [];
     capture_region := None;
     recapture_btn := false;
     status_var := if client then StatusSelectRegion else StatusSetKey |}.

(** Lines 251-293, [_do_capture], on the application: [response] is what
    the screen grab of the region followed by the service call gives. *)
Definition _do_capture (a : app) (response : completion) (now : str)
  : app * list box :=
  let '(result, data) :=
    ZoomAttendance._do_capture response now (attendance_data a) in
  let finish st boxes :=
    ({| client := client a; attendance_data := data;
        capture_region := capture_region a;
        recapture_btn := recapture_btn a; status_var := st |}, boxes) in
  match result with
  | Ok (Detected detected new_count) =>
      finish (StatusDetected detected new_count now) []
  | Ok NoNamesDetected => finish StatusNoNames []
  | Ok (ErrorMessage e) => finish StatusError [ErrorProcessing e]
  | Raise e => finish StatusError [ErrorProcessing e]
  end.

(** Lines 230-240, [_on_region_selected]; [screen] gives, for a region,
    the outcome of grabbing it and calling the service. *)
Definition _on_region_selected (a : app)
    (region : option ScreenSelector.region)
    (screen : ScreenSelector.region -> completion) (now : str)
  : app * list box :=
  match region with
  | None =>
      ({| client := client a; attendance_data := attendance_data a;
          capture_region := capture_region a;
          recapture_btn := recapture_btn a;
          status_var := StatusCancelled |}, [])
  | Some r =>
      _do_capture
        {| client := client a; attendance_data := attendance_data a;
           capture_region := Some r; recapture_btn := true;
           status_var := status_var a |}
        (screen r) now
  end.

(** Lines 211-228, [select_and_capture] and [_start_selection]:
    [gesture] is what the user does on the overlay. *)
Definition select_and_capture (a : app)
    (gesture : list ScreenSelector.tk_event)
    (screen : ScreenSelector.region -> completion) (now : str)
  : app * list box :=
  if negb (client a) then (a, [ErrorKeyNotSet])
  else
    match ScreenSelector.run ScreenSelector.__init__ gesture with
    | ScreenSelector.Open _ => (a, [])
    | ScreenSelector.Closed region => _on_region_selected a region screen now
    end.

(** Lines 242-249, [recapture]. *)
Definition recapture (a : app)
    (screen : ScreenSelector.region -> completion) (now : str)
  : app * list box :=
  if negb (client a) then (a, [ErrorSetKey])
  else
    match capture_region a with
    | Some r => _do_capture a (screen r) now
    | None => (a, [])
    end.

(** Lines 361-395, [export_csv], with its boxes and status line; the
    third component is the file the handler leaves behind, if it opened
    one. *)
Definition export_csv (a : app) (filepath : option str) (writable : bool)
  : app * list box * option (str * list N) :=
  match ZoomAttendance.export_csv (attendance_data a) filepath writable with
  | ZoomAttendance.NothingToExport => (a, [WarningNoData], None)
  | ZoomAttendance.ExportCancelled => (a, [], None)
  | ZoomAttendance.Saved path file =>
      ({| client := client a; attendance_data := attendance_data a;
          capture_region := capture_region a;
          recapture_btn := recapture_btn a;
          status_var := StatusExported path |},
       [InfoSaved path], Some (path, file))
  | ZoomAttendance.ExportError path file =>
      (a, [ErrorSaving], option_map (pair path) file)
  end.

(** Lines 397-405, [clear_data], with its status line. *)
Definition clear_data (a : app) (confirmed : bool) : app :=
  if negb (truthy (attendance_data a)) then a
  else if confirmed then
    {| client := client a;
       attendance_data := snd (ZoomAttendance.clear_data confirmed
                                 (attendance_data a));
       capture_region := capture_region a;
       recapture_btn := recapture_btn a;
       status_var := StatusCleared |}
  else a.

(** Line 359 of [_update_list]: the number shown in the statistics line. *)
Definition stats (a : app) : nat := dict_len (attendance_data a).

(** One press of a button of the main window, with what the user and
    the environment do until the handler returns. *)
Inductive click :=
| ClickCapture (gesture : list ScreenSelector.tk_event)
    (screen : ScreenSelector.region -> completion) (now : str)
| ClickRecapture (screen : ScreenSelector.region -> completion) (now : str)
| ClickExport (filepath : option str) (writable : bool)
| ClickClear (confirmed : bool).

Definition handle (a : app) (c : click) : app :=
  match c with
  | ClickCapture gesture screen now =>
      fst (select_and_capture a gesture screen now)
  | ClickRecapture screen now => fst (recapture a screen now)
  | ClickExport filepath writable => fst (fst (export_csv a filepath writable))
  | ClickClear confirmed => clear_data a confirmed
  end.

(** The run of the application over a sequence of clicks. *)
Definition mainloop (api_key : option str) (clicks : list click) : app :=
  fold_left handle clicks (__init__ api_key).

End ZoomAttendanceApp.

(* ================================================================== *)
(** * app.py: one run of the script *)
(* ================================================================== *)

(** [main] of [app.py] (lines 67-198).  Streamlit runs it from the top on
    every interaction; the dict lives in the session state, created empty
    on the first run (lines 78-79). *)
Module AppMain.
Import Py.

(** What the page shows below the title: only the request for a key, or
    the outcome of the analysis (if one ran), the subheader's count, the
    table or the no-data notice, and the rows offered for download. *)
Inductive page :=
| NeedKey
| Shown (notice : option message) (count : nat) (body : App.view)
    (download : option (list (list value))).

(** What the user has entered and pressed for this run, and what the
    service answers if it is called. *)
Record inputs := mkInputs {
  api_key : str;
  uploaded_file : option (list N);
  analyze_clicked : bool;
  response : completion;
  now : str;
  clear_clicked : bool
}.

Definition session_data : M dict := fun d => (Ok d, d).

(** One pass over lines 105-198, as far as the ledger and the widgets
    that read it are concerned; the boolean tells whether [st.rerun()]
    was called.  The drawing calls that sit outside the [try] -- the
    preview of the uploaded file (line 122), the data frames (lines
    163-164 and 180-182) and the encoding of the download (line 187) --
    are taken to return: a file that is not an image or a name that
    cannot be encoded makes the real run stop at that call with an
    exception, before the buttons that follow it are drawn, and such a
    run is not described by [script]. *)
Definition script (i : inputs) : M (page * bool) :=
  if negb (truthy (api_key i)) then ret (NeedKey, false)
  else
    notice <-
      (match uploaded_file i with
       | Some _ =>
           if analyze_clicked i
           then (m <- App.analyze (response i) (now i) ;; ret (Some m))
           else ret None
       | None => ret None
       end) ;;
    data <- session_data ;;
    let count := dict_len data in
    if truthy data then
      let shown :=
        Shown notice count (App.render data) (Some (App.csv_data data)) in
      if clear_clicked i
      then App.clear ;;; ret (shown, true)
      else ret (shown, false)
    else ret (Shown notice count (App.render data) None, false).

(** The rerun keeps the text input and the uploaded file; no button is
    pressed in it. *)
Definition rerun_inputs (i : inputs) : inputs :=
  {| api_key := api_key i; uploaded_file := uploaded_file i;
     analyze_clicked := false; response := response i; now := now i;
     clear_clicked := false |}.

(** The page the user ends up with after one interaction. *)
Definition main (i : inputs) : M page :=
  r <- script i ;;
  if snd r
  then (r' <- script (rerun_inputs i) ;; ret (fst r'))
  else ret (fst r).

(** A session: the runs of the script, one per interaction, from the
    empty dict. *)
Definition session (runs : list inputs) : dict :=
  fold_left (fun d i => snd (main i d)) runs [].

End AppMain.

(** A session of submissions through the analysis cycle. *)
Definition submit (d : Py.dict) (submission : completion * Py.str) : Py.dict :=
  snd (App.analyze (fst submission) (snd submission) d).

(** Whether the response of a submission yields [name]. *)
Definition detects (name : Py.str) (response : completion) : bool :=
  match response with
  | Raises _ => false
  | Content content =>
      existsb (Py.str_eqb name) (App.names_of_content content)
  end.

(** A text with every line feed preceded by a carriage return. *)
Definition crlf (text : Py.str) : Py.str :=
  flat_map (fun c => if N.eqb c Py.LF then [Py.CR; Py.LF] else [c]) text.

(** A string all of whose code points can be encoded. *)
Definition encodable (text : Py.str) : Prop :=
  Forall (fun c => Codec.scalar c = true) text.

(* ================================================================== *)
(** * Facts about the built-ins *)
(* ================================================================== *)

Section PyFacts.
Import Py.

Lemma str_eqb_eq (a b : str) : str_eqb a b = true <-> a = b.
Proof.
  revert b; induction a as [|x a IH]; intros [|y b]; simpl;
    try (split; congruence).
  rewrite andb_true_iff, N.eqb_eq, IH. split.
  - intros [-> ->]; reflexivity.
  - intros E; injection E; auto.
Qed.

Lemma str_eqb_refl (a : str) : str_eqb a a = true.
Proof. apply str_eqb_eq; reflexivity. Qed.

Lemma str_eqb_neq (a b : str) : str_eqb a b = false <-> a <> b.
Proof.
  rewrite <- str_eqb_eq. destruct (str_eqb a b); split; congruence.
Qed.

Lemma str_eqb_sym (a b : str) : str_eqb a b = str_eqb b a.
Proof.
  destruct (str_eqb a b) eqn:E.
  - apply str_eqb_eq in E; subst; symmetry; apply str_eqb_refl.
  - apply str_eqb_neq in E. symmetry; apply str_eqb_neq; congruence.
Qed.

Lemma str_eq_dec (a b : str) : {a = b} + {a <> b}.
Proof.
  destruct (str_eqb a b) eqn:E.
  - left; apply str_eqb_eq; exact E.
  - right; apply str_eqb_neq; exact E.
Defined.

(** ** dict *)

Lemma dict_get_set_same (d : dict) k v : dict_get (dict_set d k v) k = Some v.
Proof.
  induction d as [|[k' v'] d IH]; simpl.
  - rewrite str_eqb_refl; reflexivity.
  - destruct (str_eqb k' k) eqn:E; simpl; rewrite E; auto.
Qed.

Lemma dict_get_set_other (d : dict) k v k' :
  k <> k' -> dict_get (dict_set d k v) k' = dict_get d k'.
Proof.
  intros Hne. induction d as [|[k0 v0] d IH]; simpl.
  - apply str_eqb_neq in Hne. rewrite Hne; reflexivity.
  - destruct (str_eqb k0 k) eqn:E; simpl.
    + apply str_eqb_eq in E; subst k0.
      apply str_eqb_neq in Hne. rewrite Hne; reflexivity.
    + rewrite IH; reflexivity.
Qed.

Lemma dict_contains_keys (d : dict) k :
  dict_contains d k = true <-> In k (dict_keys d).
Proof.
  unfold dict_contains. induction d as [|[k' v'] d IH]; simpl.
  - split; [discriminate | tauto].
  - destruct (str_eqb k' k) eqn:E.
    + apply str_eqb_eq in E. split; auto.
    + apply str_eqb_neq in E. rewrite IH. split; [auto | intros [?|?]; tauto].
Qed.

Lemma dict_get_none_keys (d : dict) k :
  dict_get d k = None <-> ~ In k (dict_keys d).
Proof.
  rewrite <- dict_contains_keys. unfold dict_contains.
  destruct (dict_get d k); split; congruence.
Qed.

Lemma dict_get_In (d : dict) k v : dict_get d k = Some v -> In (k, v) d.
Proof.
  induction d as [|[k' v'] d IH]; simpl; [discriminate|].
  destruct (str_eqb k' k) eqn:E.
  - apply str_eqb_eq in E. intros [= ->]. left; congruence.
  - auto.
Qed.

Lemma dict_In_get (d : dict) k v :
  dict_wf d -> In (k, v) d -> dict_get d k = Some v.
Proof.
  unfold dict_wf, dict_keys.
  induction d as [|[k' v'] d IH]; simpl; [tauto|].
  intros Hnd [E|Hin]; inversion Hnd; subst.
  - injection E as -> ->. rewrite str_eqb_refl; reflexivity.
  - destruct (str_eqb k' k) eqn:E.
    + apply str_eqb_eq in E; subst k'.
      exfalso. apply H1. change k with (fst (k, v)). apply in_map; exact Hin.
    + auto.
Qed.

Lemma dict_keys_set (d : dict) k v :
  dict_keys (dict_set d k v) =
  if dict_contains d k then dict_keys d else dict_keys d ++ [k].
Proof.
  unfold dict_contains, dict_keys. induction d as [|[k' v'] d IH]; simpl.
  - reflexivity.
  - destruct (str_eqb k' k) eqn:E; simpl.
    + reflexivity.
    + rewrite IH. destruct (dict_get d k); reflexivity.
Qed.

Lemma dict_wf_set (d : dict) k v : dict_wf d -> dict_wf (dict_set d k v).
Proof.
  unfold dict_wf. intros Hwf. rewrite dict_keys_set.
  destruct (dict_contains d k) eqn:E; [exact Hwf|].
  assert (Hnot : ~ In k (dict_keys d)).
  { rewrite <- dict_contains_keys. congruence. }
  apply NoDup_rev in Hwf.
  rewrite <- (rev_involutive (dict_keys d ++ [k])).
  apply NoDup_rev. rewrite rev_app_distr; simpl.
  constructor; [rewrite <- in_rev; exact Hnot | exact Hwf].
Qed.

End PyFacts.

(* ================================================================== *)
(** * The merge loop *)
(* ================================================================== *)

Section Merge.
Import Py.

Lemma dict_set_set (d : dict) k v v' :
  dict_set (dict_set d k v) k v' = dict_set d k v'.
Proof.
  induction d as [|[k0 v0] d IH]; simpl.
  - rewrite str_eqb_refl; reflexivity.
  - destruct (str_eqb k0 k) eqn:E; simpl; rewrite E; congruence.
Qed.

Lemma times_of_contains (d : dict) k :
  dict_contains d k = true -> dict_get d k = Some (times_of d k).
Proof.
  unfold dict_contains, times_of. destruct (dict_get d k); congruence.
Qed.

Lemma times_of_absent (d : dict) k :
  dict_contains d k = false -> times_of d k = [].
Proof.
  unfold dict_contains, times_of. destruct (dict_get d k); congruence.
Qed.

Lemma visit_get_same now (d : dict) k :
  dict_get (visit now d k) k = Some (times_of d k ++ [now]).
Proof. apply dict_get_set_same. Qed.

Lemma visit_get_other now (d : dict) k k' :
  k <> k' -> dict_get (visit now d k) k' = dict_get d k'.
Proof. apply dict_get_set_other. Qed.

Lemma visit_keys now (d : dict) k :
  dict_keys (visit now d k) =
  if dict_contains d k then dict_keys d else dict_keys d ++ [k].
Proof. apply dict_keys_set. Qed.

Lemma visit_contains now (d : dict) k k' :
  dict_contains d k' = true -> dict_contains (visit now d k) k' = true.
Proof.
  rewrite !dict_contains_keys, visit_keys.
  destruct (dict_contains d k); [auto | rewrite in_app_iff; auto].
Qed.

Lemma dict_length_keys (d : dict) : length d = length (dict_keys d).
Proof. unfold dict_keys. symmetry; apply length_map. Qed.

Lemma visit_length now (d : dict) k :
  length (visit now d k) =
  length d + (if dict_contains d k then 0 else 1).
Proof.
  rewrite !dict_length_keys, visit_keys.
  destruct (dict_contains d k); [lia | rewrite length_app; simpl; lia].
Qed.

Lemma visits_length_le now names : forall d : dict,
  length d <= length (fold_left (visit now) names d).
Proof.
  induction names as [|a names IH]; intros d; simpl; [lia|].
  specialize (IH (visit now d a)). rewrite visit_length in IH. lia.
Qed.

(** One iteration of the loop body is [visit], and counts the key it
    creates. *)
Lemma merge_loop_cons name rest now new_count (d : dict) :
  App.merge_loop (name :: rest) now new_count d =
  App.merge_loop rest now
    (new_count + (if dict_contains d name then 0 else 1)) (visit now d name).
Proof.
  simpl. unfold bind, contains, setitem, getitem_append, ret, visit.
  destruct (dict_contains d name) eqn:E; simpl.
  - rewrite (times_of_contains _ _ E). f_equal. lia.
  - rewrite dict_get_set_same, dict_set_set, (times_of_absent _ _ E).
    reflexivity.
Qed.

(** The loop never raises: it returns the count of created keys and
    leaves the dict visited once per element of [names]. *)
Lemma merge_loop_run names now : forall new_count (d : dict),
  App.merge_loop names now new_count d =
  (Ok (new_count + (length (fold_left (visit now) names d) - length d)),
   fold_left (visit now) names d).
Proof.
  induction names as [|a names IH]; intros n d.
  - simpl. unfold ret. do 2 f_equal. lia.
  - rewrite merge_loop_cons, IH. simpl. do 2 f_equal.
    pose proof (visits_length_le now names (visit now d a)) as Hle.
    rewrite visit_length in *. lia.
Qed.

(** The two programs run the same loop. *)
Lemma merge_loop_same :
  ZoomAttendance.merge_loop = App.merge_loop.
Proof. reflexivity. Qed.

Lemma occurrences_cons k a names :
  occurrences k (a :: names) =
  (if str_eqb k a then 1 else 0) + occurrences k names.
Proof. unfold occurrences; simpl. destruct (str_eqb k a); reflexivity. Qed.

Lemma occurrences_zero k names : occurrences k names = 0 <-> ~ In k names.
Proof.
  induction names as [|a names IH]; [simpl; tauto|].
  rewrite occurrences_cons. simpl. destruct (str_eqb k a) eqn:E.
  - apply str_eqb_eq in E. split; [discriminate | intros H; exfalso; auto].
  - apply str_eqb_neq in E. simpl. rewrite IH.
    split; [intros H [?|?]; [congruence | auto] | auto].
Qed.

Lemma occurrences_NoDup k names :
  NoDup names -> In k names -> occurrences k names = 1.
Proof.
  induction 1 as [|a names Hnot Hnd IH]; [simpl; tauto|].
  rewrite occurrences_cons. intros [->|Hin].
  - rewrite str_eqb_refl. apply occurrences_zero in Hnot. lia.
  - rewrite (IH Hin). destruct (str_eqb k a) eqn:E; [|reflexivity].
    apply str_eqb_eq in E; subst; tauto.
Qed.

(** Every key, after the visits: untouched when it is not in [names],
    otherwise its old sequence followed by one [now] per occurrence. *)
Lemma visits_get now names : forall (d : dict) k,
  dict_get (fold_left (visit now) names d) k =
  match occurrences k names with
  | 0 => dict_get d k
  | S _ => Some (times_of d k ++ repeat now (occurrences k names))
  end.
Proof.
  induction names as [|a names IH]; intros d k; [reflexivity|].
  simpl fold_left. rewrite IH, occurrences_cons.
  destruct (str_eqb k a) eqn:E.
  - apply str_eqb_eq in E; subst a. simpl.
    unfold times_of at 1. rewrite !visit_get_same.
    destruct (occurrences k names); simpl; [reflexivity|].
    rewrite <- app_assoc. reflexivity.
  - apply str_eqb_neq in E. simpl.
    unfold times_of. rewrite !visit_get_other by congruence. reflexivity.
Qed.

Lemma absent_names_visit now (d : dict) a names :
  ~ In a names -> absent_names (visit now d a) names = absent_names d names.
Proof.
  intros Hnot. unfold absent_names. apply filter_ext_in.
  intros k Hk. unfold dict_contains.
  rewrite visit_get_other; [reflexivity | intros ->; tauto].
Qed.

(** With unique names the keys created are the absent names, in order. *)
Lemma visits_keys now names : forall d : dict,
  NoDup names ->
  dict_keys (fold_left (visit now) names d) =
  dict_keys d ++ absent_names d names.
Proof.
  induction names as [|a names IH]; intros d Hnd.
  - simpl. rewrite app_nil_r; reflexivity.
  - inversion Hnd; subst. simpl fold_left.
    rewrite IH, visit_keys, absent_names_visit by assumption.
    unfold absent_names at 2; simpl.
    destruct (dict_contains d a); simpl; [reflexivity|].
    rewrite <- app_assoc; reflexivity.
Qed.

(** Keys are never removed, and old keys keep their place. *)
Lemma visits_keys_prefix now names : forall d : dict,
  exists created, dict_keys (fold_left (visit now) names d) =
                  dict_keys d ++ created.
Proof.
  induction names as [|a names IH]; intros d.
  - exists []. simpl. rewrite app_nil_r; reflexivity.
  - simpl. destruct (IH (visit now d a)) as [c Hc]. rewrite Hc, visit_keys.
    destruct (dict_contains d a); [exists c; reflexivity|].
    exists (a :: c). rewrite <- app_assoc; reflexivity.
Qed.

Lemma visits_all_present now names : forall d : dict,
  (forall k, In k names -> dict_contains d k = true) ->
  length (fold_left (visit now) names d) = length d.
Proof.
  induction names as [|a names IH]; intros d Hall; [reflexivity|].
  simpl. rewrite IH.
  - rewrite visit_length, (Hall a) by (left; reflexivity). lia.
  - intros k Hk. apply visit_contains. apply Hall. right; exact Hk.
Qed.

Lemma visits_wf now names : forall d : dict,
  dict_wf d -> dict_wf (fold_left (visit now) names d).
Proof.
  induction names as [|a names IH]; intros d Hwf; [exact Hwf|].
  simpl. apply IH. apply dict_wf_set. exact Hwf.
Qed.

End Merge.

(* ================================================================== *)
(** * The line normalizer *)
(* ================================================================== *)

Section Normalizer.
Import Py.

(** ** Trimming *)

Lemma rstrip_cons c (s : str) :
  rstrip (c :: s) =
  match rstrip s with
  | [] => if isspace c then [] else [c]
  | kept => c :: kept
  end.
Proof. reflexivity. Qed.

Lemma lstrip_head_kept c (s : str) : isspace c = false -> lstrip (c :: s) = c :: s.
Proof. intros H; simpl; rewrite H; reflexivity. Qed.

Lemma strip_commute (s : str) : rstrip (lstrip s) = lstrip (rstrip s).
Proof.
  induction s as [|c s IH]; [reflexivity|].
  destruct (isspace c) eqn:Hc.
  - simpl lstrip at 1. rewrite Hc, IH, rstrip_cons, Hc.
    destruct (rstrip s) as [|k kept]; [reflexivity|].
    simpl. rewrite Hc. reflexivity.
  - rewrite lstrip_head_kept by exact Hc. rewrite rstrip_cons, Hc.
    destruct (rstrip s); simpl; rewrite Hc; reflexivity.
Qed.

Lemma strip_space_cons c (s : str) : isspace c = true -> strip (c :: s) = strip s.
Proof. intros H. unfold strip. simpl. rewrite H. reflexivity. Qed.

Lemma lstrip_idem (s : str) : lstrip (lstrip s) = lstrip s.
Proof.
  induction s as [|c s IH]; [reflexivity|].
  simpl. destruct (isspace c) eqn:E; [exact IH | simpl; rewrite E; reflexivity].
Qed.

Lemma rstrip_idem (s : str) : rstrip (rstrip s) = rstrip s.
Proof.
  induction s as [|c s IH]; [reflexivity|].
  rewrite rstrip_cons. destruct (rstrip s) as [|k kept] eqn:E.
  - destruct (isspace c) eqn:Hc; simpl; [reflexivity | rewrite Hc; reflexivity].
  - rewrite rstrip_cons, IH. reflexivity.
Qed.

(** A trimmed string is a fixed point of [strip]. *)
Lemma strip_idem (s : str) : strip (strip s) = strip s.
Proof.
  unfold strip. rewrite (strip_commute (rstrip (lstrip s))), rstrip_idem.
  rewrite <- strip_commute, lstrip_idem. reflexivity.
Qed.

(** ** Splitting *)

Lemma split_nonempty sep (s : str) : exists p ps, split sep s = p :: ps.
Proof.
  induction s as [|c s [p [ps IH]]]; simpl.
  - eauto.
  - destruct (N.eqb c sep); [eauto|]. rewrite IH; simpl; eauto.
Qed.

Lemma split_cons sep c (s : str) :
  split sep (c :: s) =
  if N.eqb c sep then [] :: split sep s else cons_first c (split sep s).
Proof. reflexivity. Qed.

Lemma LF_isspace : isspace LF = true.
Proof. reflexivity. Qed.

Lemma not_space_not_LF c : isspace c = false -> N.eqb c LF = false.
Proof.
  intros H. destruct (N.eqb c LF) eqn:E; [|reflexivity].
  apply N.eqb_eq in E; subst. discriminate.
Qed.

(** The lines of a text and of the text with its leading white space
    removed differ by blank lines only. *)
Lemma lines_lstrip (s : str) :
  filter truthy (map strip (split LF (lstrip s))) =
  filter truthy (map strip (split LF s)).
Proof.
  induction s as [|c s IH]; [reflexivity|].
  simpl lstrip. destruct (isspace c) eqn:Hc; [|reflexivity].
  rewrite IH. simpl split. destruct (N.eqb c LF) eqn:E.
  - reflexivity.
  - destruct (split_nonempty LF s) as [p [ps Hs]]. rewrite Hs. simpl.
    rewrite (strip_space_cons _ _ Hc). reflexivity.
Qed.

(** A text of white space only: every line trims to nothing. *)
Lemma blank_lines (s : str) :
  rstrip s = [] ->
  map rstrip (split LF s) = repeat [] (length (split LF s)).
Proof.
  induction s as [|c s IH]; [reflexivity|].
  rewrite rstrip_cons. destruct (rstrip s) eqn:Hr; [|discriminate].
  destruct (isspace c) eqn:Hc; [|discriminate]. intros _.
  specialize (IH eq_refl). simpl split. destruct (N.eqb c LF).
  - simpl. rewrite IH. reflexivity.
  - destruct (split_nonempty LF s) as [p [ps Hs]]. rewrite Hs in *.
    simpl in *. injection IH as Hp Hps.
    rewrite Hp, Hc, Hps. reflexivity.
Qed.

(** Removing the trailing white space of a text removes blank lines at
    its end and trims its last line, nothing else. *)
Lemma lines_rstrip_pieces (s : str) :
  exists k, map rstrip (split LF s) =
            map rstrip (split LF (rstrip s)) ++ repeat [] k.
Proof.
  induction s as [|c s [k IH]]; [exists 0; reflexivity|].
  rewrite rstrip_cons. destruct (rstrip s) as [|x kept] eqn:Hr.
  - pose proof (blank_lines s Hr) as Hb.
    destruct (isspace c) eqn:Hc.
    + assert (Hall : rstrip (c :: s) = []) by (rewrite rstrip_cons, Hr, Hc; reflexivity).
      rewrite (blank_lines _ Hall).
      destruct (split_nonempty LF (c :: s)) as [p [ps Hs]]. rewrite Hs.
      exists (length ps). reflexivity.
    + simpl split. rewrite (not_space_not_LF _ Hc).
      destruct (split_nonempty LF s) as [p [ps Hs]]. rewrite Hs in *.
      simpl in Hb. injection Hb as Hp Hps.
      exists (length ps). simpl. rewrite Hp, Hc, Hps. reflexivity.
  - rewrite (split_cons LF c s), (split_cons LF c (x :: kept)).
    destruct (N.eqb c LF).
    + exists k. simpl. rewrite IH. reflexivity.
    + destruct (split_nonempty LF s) as [p [ps Hs]].
      destruct (split_nonempty LF (x :: kept)) as [q [qs Hq]].
      rewrite Hs, Hq in *. simpl in IH. injection IH as Hp Hps.
      exists k. simpl. rewrite Hp, Hps. reflexivity.
Qed.

Lemma strip_as_lstrip_rstrip (l : list str) :
  map strip l = map lstrip (map rstrip l).
Proof.
  rewrite map_map. apply map_ext. intros s. apply strip_commute.
Qed.

Lemma filter_truthy_blank (k : nat) :
  filter truthy (map lstrip (repeat ([] : str) k)) = [].
Proof. induction k; simpl; auto. Qed.

Lemma lines_rstrip (s : str) :
  filter truthy (map strip (split LF (rstrip s))) =
  filter truthy (map strip (split LF s)).
Proof.
  destruct (lines_rstrip_pieces s) as [k Hk].
  rewrite !strip_as_lstrip_rstrip, Hk, map_app, filter_app.
  rewrite filter_truthy_blank, app_nil_r. reflexivity.
Qed.

(** Trimming the whole text first does not change its non-blank lines. *)
Lemma lines_strip (s : str) :
  filter truthy (map strip (split LF (strip s))) =
  filter truthy (map strip (split LF s)).
Proof. unfold strip. rewrite lines_rstrip, lines_lstrip. reflexivity. Qed.

Lemma map_filter_comp {A B} (f : A -> B) (p : B -> bool) (l : list A) :
  map f (filter (fun x => p (f x)) l) = filter p (map f l).
Proof.
  induction l as [|x l IH]; simpl; [reflexivity|].
  destruct (p (f x)); simpl; rewrite IH; reflexivity.
Qed.

(** ** The loop with [seen] *)

Lemma set_contains_add (seen : set) a x :
  set_contains (set_add seen a) x = str_eqb x a || set_contains seen x.
Proof.
  unfold set_add. destruct (set_contains seen a) eqn:E; [|reflexivity].
  destruct (str_eqb x a) eqn:Ex; [|reflexivity].
  apply str_eqb_eq in Ex; subst. simpl. exact E.
Qed.

Lemma filter_filter {A} (p q : A -> bool) (l : list A) :
  filter p (filter q l) = filter (fun x => q x && p x) l.
Proof.
  induction l as [|x l IH]; simpl; [reflexivity|].
  destruct (q x); simpl; [destruct (p x)|]; rewrite IH; reflexivity.
Qed.

(** The loop returns what it had, followed by the first occurrences of
    the acceptable names it has not seen. *)
Lemma acceptable_split (a : str) (seen : set) :
  truthy a && negb (set_contains seen a) && (2 <=? length a) =
  Spec.acceptable a && negb (set_contains seen a).
Proof.
  unfold Spec.acceptable.
  destruct (truthy a), (set_contains seen a), (2 <=? length a); reflexivity.
Qed.

Lemma unique_loop_spec names : forall (seen : set) unique_names,
  App.unique_loop names seen unique_names =
  unique_names ++
  filter (fun x => negb (set_contains seen x))
    (Spec.dedup (filter Spec.acceptable names)).
Proof.
  induction names as [|a names IH]; intros seen acc.
  - simpl. rewrite app_nil_r. reflexivity.
  - cbn [App.unique_loop filter]. rewrite acceptable_split.
    destruct (Spec.acceptable a) eqn:Hok; cbn [andb].
    + cbn [Spec.dedup filter].
      destruct (set_contains seen a) eqn:Hs; cbn [negb].
      * rewrite IH. f_equal. rewrite filter_filter. apply filter_ext.
        intros x. destruct (str_eqb x a) eqn:Ex; [|reflexivity].
        apply str_eqb_eq in Ex; subst. rewrite Hs. reflexivity.
      * rewrite IH, <- app_assoc. cbn [app]. do 2 f_equal.
        rewrite filter_filter. apply filter_ext. intros x.
        rewrite set_contains_add. destruct (str_eqb x a); reflexivity.
    + apply IH.
Qed.

Lemma filter_true {A} (l : list A) : filter (fun _ => true) l = l.
Proof. induction l; simpl; congruence. Qed.

(** Refinement: the code computes the normalizer of the specification. *)
Lemma names_of_content_spec (raw : str) :
  App.names_of_content raw = Spec.normalize raw.
Proof.
  unfold App.names_of_content, Spec.normalize, Spec.trimmed_lines.
  rewrite unique_loop_spec. cbn [app set_empty set_contains existsb negb].
  rewrite filter_true, (map_filter_comp strip truthy), lines_strip.
  f_equal. rewrite !filter_filter. apply filter_ext. intros line.
  unfold Spec.acceptable. destruct (truthy line); reflexivity.
Qed.

(** The two programs hold the same normalizer. *)
Lemma names_of_content_same :
  ZoomAttendance.names_of_content = App.names_of_content.
Proof. reflexivity. Qed.

(** ** First occurrences *)

Lemma dedup_In (l : list str) x : In x (Spec.dedup l) <-> In x l.
Proof.
  induction l as [|a l IH]; simpl; [tauto|].
  rewrite filter_In, IH, negb_true_iff, str_eqb_neq.
  destruct (str_eq_dec a x) as [->|Hne]; [tauto|].
  split; [tauto | intros [?|?]; [tauto | right; split; congruence]].
Qed.

Lemma dedup_NoDup (l : list str) : NoDup (Spec.dedup l).
Proof.
  induction l as [|a l IH]; simpl; constructor.
  - rewrite filter_In, negb_true_iff, str_eqb_neq. tauto.
  - apply NoDup_filter. exact IH.
Qed.

(** Filtering keeps the relative order. *)
Lemma filter_keeps_order {A} (q : A -> bool) (l : list A) : forall i j a b,
  i < j ->
  nth_error (filter q l) i = Some a -> nth_error (filter q l) j = Some b ->
  exists i' j', i' < j' /\ nth_error l i' = Some a /\ nth_error l j' = Some b.
Proof.
  induction l as [|y l IH]; intros i j a b Hij Ha Hb.
  - destruct i; discriminate.
  - simpl in Ha, Hb. destruct (q y).
    + destruct j as [|j]; [lia|]. destruct i as [|i]; simpl in Ha, Hb.
      * apply nth_error_In in Hb. apply filter_In in Hb as [Hb _].
        apply In_nth_error in Hb as [n Hn].
        exists 0, (S n). repeat split; [lia | exact Ha | exact Hn].
      * destruct (IH i j a b) as [i' [j' [? [? ?]]]]; [lia | auto | auto |].
        exists (S i'), (S j'). repeat split; [lia | auto | auto].
    + destruct (IH i j a b) as [i' [j' [? [? ?]]]]; auto.
      exists (S i'), (S j'). repeat split; [lia | auto | auto].
Qed.

Lemma index_of_cons_other x a (l : list str) :
  a <> x -> index_of x (a :: l) = S (index_of x l).
Proof. intros H. simpl. apply str_eqb_neq in H. rewrite H. reflexivity. Qed.

Lemma dedup_first_seen (p : str -> bool) (lines : list str) :
  first_seen_order (Spec.dedup (filter p lines)) lines.
Proof.
  unfold first_seen_order.
  induction lines as [|x lines IH]; intros i j a b Hij Ha Hb.
  - destruct i; discriminate.
  - cbn [filter] in Ha, Hb. destruct (p x) eqn:Hp.
    + cbn [Spec.dedup] in Ha, Hb.
      destruct j as [|j]; [lia|]. simpl in Hb.
      assert (Hbx : x <> b).
      { apply nth_error_In, filter_In in Hb as [_ Hb].
        apply negb_true_iff, str_eqb_neq in Hb. congruence. }
      rewrite (index_of_cons_other _ Hbx).
      destruct i as [|i]; simpl in Ha.
      * injection Ha as ->. simpl. rewrite str_eqb_refl. lia.
      * assert (Hax : x <> a).
        { apply nth_error_In, filter_In in Ha as [_ Ha].
          apply negb_true_iff, str_eqb_neq in Ha. congruence. }
        rewrite (index_of_cons_other _ Hax).
        assert (Hlt0 : i < j) by lia.
        destruct (filter_keeps_order _ _ Hlt0 Ha Hb)
          as [i' [j' [Hlt [Ha' Hb']]]].
        specialize (IH i' j' a b Hlt Ha' Hb'). lia.
    + assert (Hax : x <> a).
      { intros ->. apply nth_error_In, dedup_In, filter_In in Ha. 
        destruct Ha; congruence. }
      assert (Hbx : x <> b).
      { intros ->. apply nth_error_In, dedup_In, filter_In in Hb.
        destruct Hb; congruence. }
      rewrite (index_of_cons_other _ Hax), (index_of_cons_other _ Hbx).
      specialize (IH i j a b Hij Ha Hb). lia.
Qed.

Lemma normalize_In (raw : str) name :
  In name (Spec.normalize raw) <->
  In name (Spec.trimmed_lines raw) /\ 2 <= length name.
Proof.
  unfold Spec.normalize. rewrite dedup_In, !filter_In, Nat.leb_le.
  split; [tauto|]. intros [Hin Hlen]. repeat split; auto.
  destruct name; [simpl in Hlen; lia | reflexivity].
Qed.

Lemma names_of_content_NoDup (raw : str) : NoDup (App.names_of_content raw).
Proof. rewrite names_of_content_spec. apply dedup_NoDup. Qed.

(** C2 -- Line normalizer contract.  For every raw text, with its lines
    taken between line feeds and trimmed: the names returned (by either
    program) are exactly the trimmed lines of at least two characters, so
    no blank line and no line shorter than two characters is returned;
    no name is returned twice; and the names come in the order of their
    first occurrences among the trimmed lines.  The result is the
    normalizer of the specification. *)
Theorem normalizer_contract (raw : str) :
  App.names_of_content raw = Spec.normalize raw /\
  ZoomAttendance.names_of_content raw = Spec.normalize raw /\
  (forall name,
     In name (App.names_of_content raw) <->
     In name (map strip (split LF raw)) /\ 2 <= length name) /\
  (forall name, In name (App.names_of_content raw) ->
     name <> [] /\ strip name = name) /\
  NoDup (App.names_of_content raw) /\
  first_seen_order (App.names_of_content raw) (map strip (split LF raw)).
Proof.
  rewrite names_of_content_same, names_of_content_spec.
  split; [reflexivity|]. split; [reflexivity|].
  split; [intros name; apply normalize_In|].
  split; [|split].
  - intros name H. apply normalize_In in H as [Hin Hlen]. split.
    + intros ->. simpl in Hlen. lia.
    + unfold Spec.trimmed_lines in Hin.
      apply in_map_iff in Hin as [line [<- _]]. apply strip_idem.
  - apply dedup_NoDup.
  - unfold Spec.normalize. rewrite filter_filter. apply dedup_first_seen.
Qed.

(** C9 -- Implementation equivalence.  The normalizer of [app.py] and the
    one of [zoom_attendance.py] return the same ordered list of names on
    every response text, and the two extraction functions agree on every
    outcome of the service call. *)
Theorem normalizers_agree :
  (forall raw : str,
     App.names_of_content raw = ZoomAttendance.names_of_content raw) /\
  (forall response : completion,
     App.extract_names_with_openai response =
     ZoomAttendance._extract_names_with_openai response).
Proof.
  split.
  - intros raw. rewrite names_of_content_same. reflexivity.
  - intros [e|content]; simpl; [reflexivity|].
    rewrite names_of_content_same. reflexivity.
Qed.

End Normalizer.

(* ================================================================== *)
(** * The attendance ledger *)
(* ================================================================== *)

Section Ledger.
Import Py.

Lemma NoDup_two (a b : str) : a <> b -> NoDup [a; b].
Proof.
  intros H. constructor; [simpl; intuition congruence|].
  constructor; [simpl; tauto | constructor].
Qed.

(** C1 -- Merge postcondition.  For every ledger, every list of unique
    names and the one timestamp [now] of the submission, the merge loop
    returns (it does not raise) and: the keys afterwards are the old keys
    followed by the names that were absent, in order, so one entry is
    created per absent name; a name that was absent ends with exactly
    [[now]], a name that was present ends with its old sequence followed
    by one [now]; [new_count] is the number of names that were absent. *)
Theorem merge_postcondition (ledger : dict) (names : list str) (now : str) :
  NoDup names ->
  exists ledger' new_count,
    App.merge_loop names now 0 ledger = (Ok new_count, ledger') /\
    dict_keys ledger' = dict_keys ledger ++ absent_names ledger names /\
    (forall name, In name names -> dict_get ledger name = None ->
       dict_get ledger' name = Some [now]) /\
    (forall name times, In name names -> dict_get ledger name = Some times ->
       dict_get ledger' name = Some (times ++ [now])) /\
    new_count = length (absent_names ledger names).
Proof.
  intros Hnd. rewrite merge_loop_run.
  eexists _, _. split; [reflexivity|].
  split; [apply visits_keys; exact Hnd|].
  assert (Hget : forall name, In name names ->
            dict_get (fold_left (visit now) names ledger) name =
            Some (times_of ledger name ++ [now])).
  { intros name Hin. rewrite visits_get, occurrences_NoDup by assumption.
    reflexivity. }
  split; [|split].
  - intros name Hin Habs. rewrite (Hget _ Hin). unfold times_of.
    rewrite Habs. reflexivity.
  - intros name times Hin Hpre. rewrite (Hget _ Hin). unfold times_of.
    rewrite Hpre. reflexivity.
  - rewrite !dict_length_keys, visits_keys, length_app by exact Hnd.
    simpl. lia.
Qed.

Lemma merge_postcondition_witness :
  exists ledger' new_count,
    App.merge_loop [u "Alice"; u "Bob"] (u "2024-05-01 10:00:00") 0
      [(u "Bob", [u "2024-05-01 09:00:00"])] = (Ok new_count, ledger') /\
    dict_keys ledger' =
      dict_keys [(u "Bob", [u "2024-05-01 09:00:00"])] ++
      absent_names [(u "Bob", [u "2024-05-01 09:00:00"])]
        [u "Alice"; u "Bob"] /\
    (forall name, In name [u "Alice"; u "Bob"] ->
       dict_get [(u "Bob", [u "2024-05-01 09:00:00"])] name = None ->
       dict_get ledger' name = Some [u "2024-05-01 10:00:00"]) /\
    (forall name times, In name [u "Alice"; u "Bob"] ->
       dict_get [(u "Bob", [u "2024-05-01 09:00:00"])] name = Some times ->
       dict_get ledger' name = Some (times ++ [u "2024-05-01 10:00:00"])) /\
    new_count =
      length (absent_names [(u "Bob", [u "2024-05-01 09:00:00"])]
                [u "Alice"; u "Bob"]).
Proof.
  apply (merge_postcondition [(u "Bob", [u "2024-05-01 09:00:00"])]
           (names := [u "Alice"; u "Bob"]) (u "2024-05-01 10:00:00")).
  apply NoDup_two. discriminate.
Defined.

(** Testable property 3 of the specification, run on the code. *)
Example merge_new_count_example :
  let t1 := u "2024-05-01 10:00:00" in
  let t2 := u "2024-05-01 10:05:00" in
  App.merge_loop [u "Alice"; u "Bob"] t1 0 [] =
    (Ok 2, [(u "Alice", [t1]); (u "Bob", [t1])]) /\
  App.merge_loop [u "Bob"; u "Carol"] t2 0
    [(u "Alice", [t1]); (u "Bob", [t1])] =
    (Ok 1, [(u "Alice", [t1]); (u "Bob", [t1; t2]); (u "Carol", [t2])]).
Proof. split; reflexivity. Qed.

(** The claim C3 as it is worded -- any ledger, any name list, exactly
    two records afterwards -- fails when a name is already in the ledger:
    merging [Alice] twice into a ledger that holds one record for Alice
    leaves three. *)
Lemma merge_twice_exactly_two_fails :
  ~ (forall (ledger : dict) (names : list str) (t1 t2 : str),
       t1 <> t2 ->
       forall n1 l1 n2 l2,
         App.merge_loop names t1 0 ledger = (Ok n1, l1) ->
         App.merge_loop names t2 0 l1 = (Ok n2, l2) ->
         (forall name, In name names ->
            exists times, dict_get l2 name = Some times /\ length times = 2)
         /\ n2 = 0).
Proof.
  intros H.
  destruct (H [(u "Alice", [u "09:00"])] [u "Alice"] (u "10:00") (u "11:00")
              ltac:(discriminate) _ _ _ _ eq_refl eq_refl) as [Hall _].
  destruct (Hall (u "Alice") (or_introl eq_refl)) as [times [Hget Hlen]].
  vm_compute in Hget. injection Hget as <-. discriminate Hlen.
Qed.

(** The same merge on a list that repeats a name (not a normalizer
    output) appends once per repetition. *)
Example merge_twice_repeated_name :
  snd (App.merge_loop [u "Al"; u "Al"] (u "11:00") 0
         (snd (App.merge_loop [u "Al"; u "Al"] (u "10:00") 0 []))) =
  [(u "Al", [u "10:00"; u "10:00"; u "11:00"; u "11:00"])].
Proof. reflexivity. Qed.

(** C3 (amended) -- Merge is not idempotent.  For every ledger and every
    list of unique names, merging the list twice, at [t1] and then at
    [t2], appends exactly the two records [t1; t2] to the sequence each
    name had before: a name that was absent (every name, for the empty
    ledger) ends with exactly the 2 records [[t1; t2]]; the second merge
    changes the entry of every name of the list; and the second call
    returns [new_count = 0]. *)
Theorem merge_twice (ledger : dict) (names : list str) (t1 t2 : str) :
  NoDup names ->
  exists n1 l1 n2 l2,
    App.merge_loop names t1 0 ledger = (Ok n1, l1) /\
    App.merge_loop names t2 0 l1 = (Ok n2, l2) /\
    n2 = 0 /\
    (forall name, In name names -> dict_get ledger name = None ->
       dict_get l2 name = Some [t1; t2]) /\
    (forall name times, In name names -> dict_get ledger name = Some times ->
       dict_get l2 name = Some (times ++ [t1; t2])) /\
    (forall name, In name names -> dict_get l2 name <> dict_get l1 name).
Proof.
  intros Hnd. rewrite merge_loop_run.
  eexists _, _, _, _. split; [reflexivity|].
  rewrite merge_loop_run. split; [reflexivity|].
  set (l1 := fold_left (visit t1) names ledger).
  set (l2 := fold_left (visit t2) names l1).
  assert (H1 : forall name, In name names ->
            dict_get l1 name = Some (times_of ledger name ++ [t1])).
  { intros name Hin. unfold l1.
    rewrite visits_get, occurrences_NoDup by assumption. reflexivity. }
  assert (H2 : forall name, In name names ->
            dict_get l2 name = Some (times_of ledger name ++ [t1; t2])).
  { intros name Hin. unfold l2.
    rewrite visits_get, occurrences_NoDup by assumption.
    unfold times_of at 1. rewrite (H1 _ Hin), <- app_assoc. reflexivity. }
  split; [|split; [|split]].
  - unfold l2. rewrite visits_all_present; [lia|].
    intros k Hk. unfold dict_contains. rewrite (H1 _ Hk). reflexivity.
  - intros name Hin Habs. rewrite (H2 _ Hin). unfold times_of.
    rewrite Habs. reflexivity.
  - intros name times Hin Hpre. rewrite (H2 _ Hin). unfold times_of.
    rewrite Hpre. reflexivity.
  - intros name Hin. rewrite (H1 _ Hin), (H2 _ Hin). intros E.
    injection E as E. apply (f_equal (@length _)) in E.
    rewrite !length_app in E. simpl in E. lia.
Qed.

Lemma merge_twice_witness :
  exists n1 l1 n2 l2,
    App.merge_loop [u "Alice"; u "Bob"] (u "10:00") 0 [] = (Ok n1, l1) /\
    App.merge_loop [u "Alice"; u "Bob"] (u "11:00") 0 l1 = (Ok n2, l2) /\
    n2 = 0 /\
    (forall name, In name [u "Alice"; u "Bob"] -> dict_get [] name = None ->
       dict_get l2 name = Some [u "10:00"; u "11:00"]) /\
    (forall name times, In name [u "Alice"; u "Bob"] ->
       dict_get [] name = Some times ->
       dict_get l2 name = Some (times ++ [u "10:00"; u "11:00"])) /\
    (forall name, In name [u "Alice"; u "Bob"] ->
       dict_get l2 name <> dict_get l1 name).
Proof.
  apply (merge_twice [] (names := [u "Alice"; u "Bob"]) (u "10:00") (u "11:00")).
  apply NoDup_two. discriminate.
Defined.

(** C10 -- Merge frame property.  For every merge (in either program,
    which run the same loop): an entry whose name is not in the submitted
    list keeps its sequence unchanged, no key is removed, and the old
    keys keep their positions (created keys are appended after them). *)
Theorem merge_frame (ledger : dict) (names : list str) (now : str) :
  exists ledger' new_count,
    App.merge_loop names now 0 ledger = (Ok new_count, ledger') /\
    ZoomAttendance.merge_loop names now 0 ledger = (Ok new_count, ledger') /\
    (forall name, ~ In name names ->
       dict_get ledger' name = dict_get ledger name) /\
    (forall name, In name (dict_keys ledger) -> In name (dict_keys ledger')) /\
    (exists created, dict_keys ledger' = dict_keys ledger ++ created).
Proof.
  rewrite merge_loop_same, merge_loop_run.
  eexists _, _. split; [reflexivity|]. split; [reflexivity|].
  destruct (visits_keys_prefix now names ledger) as [created Hc].
  split; [|split].
  - intros name Hnot. rewrite visits_get.
    apply occurrences_zero in Hnot. rewrite Hnot. reflexivity.
  - intros name Hin. rewrite Hc. apply in_or_app. left; exact Hin.
  - exists created. exact Hc.
Qed.

(** ** One capture-and-merge cycle *)

(** What a cycle does, by cases on the outcome of the service call. *)
Lemma analyze_run (response : completion) (now : str) (d : dict) :
  App.analyze response now d =
  match response with
  | Raises e => (Ok (ErrorMessage e), d)
  | Content content =>
      let names := App.names_of_content content in
      match names with
      | [] => (Ok NoNamesDetected, d)
      | _ :: _ =>
          (Ok (Detected (length names) (length (absent_names d names))),
           fold_left (visit now) names d)
      end
  end.
Proof.
  destruct response as [e|content]; [reflexivity|].
  unfold App.analyze, try_except, bind, lift. cbn [App.extract_names_with_openai].
  pose proof (names_of_content_NoDup content) as Hnd.
  destruct (App.names_of_content content) as [|n names] eqn:E; [reflexivity|].
  cbn [truthy]. rewrite merge_loop_run. unfold ret. do 3 f_equal.
  rewrite !dict_length_keys, visits_keys, length_app by exact Hnd. lia.
Qed.

Lemma do_capture_same (response : completion) (now : str) (d : dict) :
  ZoomAttendance._do_capture response now d = App.analyze response now d.
Proof.
  destruct response as [e|content]; [reflexivity|].
  unfold ZoomAttendance._do_capture, App.analyze, try_except, bind, lift.
  cbn [ZoomAttendance._extract_names_with_openai App.extract_names_with_openai].
  rewrite names_of_content_same, merge_loop_same.
  destruct (App.names_of_content content); reflexivity.
Qed.

(** C7 -- Merge atomicity on error.  In either program: when the service
    call raises, the cycle ends with the error message and the ledger it
    started with; when the returned text normalizes to no name, it ends
    with the warning and the ledger it started with; and whatever the
    response, the ledger afterwards is either the one before or one in
    which every normalized name of the submission has received [now] (no
    merge of a proper part of the names). *)
Theorem merge_atomic_on_error (ledger : dict) (now : str) :
  (forall e,
     App.analyze (Raises e) now ledger = (Ok (ErrorMessage e), ledger) /\
     ZoomAttendance._do_capture (Raises e) now ledger =
       (Ok (ErrorMessage e), ledger)) /\
  (forall content, App.names_of_content content = [] ->
     App.analyze (Content content) now ledger = (Ok NoNamesDetected, ledger) /\
     ZoomAttendance._do_capture (Content content) now ledger =
       (Ok NoNamesDetected, ledger)) /\
  (forall response,
     ZoomAttendance._do_capture response now ledger =
       App.analyze response now ledger /\
     (snd (App.analyze response now ledger) = ledger \/
      exists content,
        response = Content content /\
        forall name, In name (App.names_of_content content) ->
          dict_get (snd (App.analyze response now ledger)) name =
          Some (times_of ledger name ++ [now]))).
Proof.
  split; [|split].
  - intros e. rewrite do_capture_same, analyze_run. split; reflexivity.
  - intros content Hnone. rewrite do_capture_same, analyze_run.
    cbv zeta. rewrite Hnone. split; reflexivity.
  - intros response. split; [apply do_capture_same|].
    rewrite analyze_run. destruct response as [e|content]; [left; reflexivity|].
    cbv zeta. pose proof (names_of_content_NoDup content) as Hnd.
    destruct (App.names_of_content content) as [|n names] eqn:E;
      [left; reflexivity|].
    right. exists content. split; [reflexivity|]. rewrite E.
    intros name Hin. cbn [snd].
    rewrite visits_get, occurrences_NoDup by assumption. reflexivity.
Qed.

(** ** The invariant *)

Lemma dict_set_nonempty (d : dict) k v :
  v <> [] ->
  Forall (fun item => snd item <> []) d ->
  Forall (fun item => snd item <> []) (dict_set d k v).
Proof.
  intros Hv. induction 1 as [|[k' v'] d Hx Hd IH]; simpl.
  - repeat constructor. exact Hv.
  - destruct (str_eqb k' k); constructor; auto.
Qed.

Lemma visits_nonempty now names : forall d : dict,
  Forall (fun item => snd item <> []) d ->
  Forall (fun item => snd item <> []) (fold_left (visit now) names d).
Proof.
  induction names as [|a names IH]; intros d Hd; [exact Hd|].
  simpl. apply IH. apply dict_set_nonempty; [|exact Hd].
  destruct (times_of d a); discriminate.
Qed.

Lemma analyze_ledger (response : completion) (now : str) (d : dict) :
  exists names, snd (App.analyze response now d) =
                fold_left (visit now) names d.
Proof.
  rewrite analyze_run. destruct response as [e|content]; [exists []; reflexivity|].
  cbv zeta. destruct (App.names_of_content content) as [|n names];
    [exists []; reflexivity | exists (n :: names); reflexivity].
Qed.

Lemma clear_data_ledger confirmed (d : dict) :
  snd (ZoomAttendance.clear_data confirmed d) = [] \/
  snd (ZoomAttendance.clear_data confirmed d) = d.
Proof.
  unfold ZoomAttendance.clear_data.
  destruct d; [left; reflexivity|]. destruct confirmed; simpl; auto.
Qed.

(** Reachable ledgers are well-formed dicts whose entries all hold at
    least one time. *)
Lemma reachable_sound (d : dict) :
  reachable d -> dict_wf d /\ Forall (fun item => snd item <> []) d.
Proof.
  induction 1 as [ | names now d _ [Hwf Hne] | names now d _ [Hwf Hne]
                   | response now d _ [Hwf Hne] | response now d _ [Hwf Hne]
                   | d _ _ | confirmed d _ [Hwf Hne] ].
  - split; constructor.
  - rewrite merge_loop_run. simpl.
    split; [apply visits_wf | apply visits_nonempty]; assumption.
  - rewrite merge_loop_same, merge_loop_run. simpl.
    split; [apply visits_wf | apply visits_nonempty]; assumption.
  - destruct (analyze_ledger response now d) as [names ->].
    split; [apply visits_wf | apply visits_nonempty]; assumption.
  - rewrite do_capture_same.
    destruct (analyze_ledger response now d) as [names ->].
    split; [apply visits_wf | apply visits_nonempty]; assumption.
  - split; constructor.
  - destruct (clear_data_ledger confirmed d) as [-> | ->];
      [split; constructor | split; assumption].
Qed.

(** C6 -- Ledger invariant.  In every ledger reachable from the empty
    ledger by merges, capture-and-merge cycles and clears (of either
    program), every key present has at least one record: looking the key
    up gives a sequence with a first element. *)
Theorem ledger_invariant (ledger : dict) :
  reachable ledger ->
  forall name, In name (dict_keys ledger) ->
    exists first rest, dict_get ledger name = Some (first :: rest).
Proof.
  intros Hr name Hin. apply reachable_sound in Hr as [_ Hne].
  apply dict_contains_keys in Hin. apply times_of_contains in Hin.
  pose proof (dict_get_In _ _ Hin) as Hitem.
  rewrite Forall_forall in Hne. specialize (Hne _ Hitem). simpl in Hne.
  rewrite Hin. destruct (times_of ledger name) as [|first rest];
    [congruence | eauto].
Qed.

Lemma ledger_invariant_witness :
  exists first rest,
    dict_get
      (snd (App.analyze (Content (u "Alice" ++ [LF] ++ u "Bob")) (u "11:00")
              (snd (App.clear
                      (snd (App.analyze (Content (u "Carol")) (u "10:00") []))))))
      (u "Bob") = Some (first :: rest).
Proof.
  apply ledger_invariant.
  - apply reach_analyze, reach_clear, reach_analyze, reach_empty.
  - vm_compute. right; left; reflexivity.
Defined.

(** ** Clear *)

(** C8 -- Clear contract.  The clear operation is unconditional and maps
    every ledger to the empty ledger in both programs: the clear button
    of [app.py] (lines 194-195) and [self.attendance_data.clear()] of
    [zoom_attendance.py] (line 403).  The confirmation box of the Tk
    handler [clear_data] is the step of the caller: once the user
    confirms, every ledger is mapped to the empty one, and when the user
    declines no clear is carried out.  After a clear the report has zero
    rows in both programs, whatever the ledger was; and the empty ledger
    is tolerated by the report and export paths: zero rows, the no-data
    notice of the web page, and [export_csv] ending with its
    nothing-to-export warning, not with an error. *)
Theorem clear_contract (ledger : dict) :
  App.clear ledger = (Ok tt, []) /\
  ZoomAttendance.clear_data true ledger = (Ok tt, []) /\
  ZoomAttendance.clear_data false ledger = (Ok tt, ledger) /\
  App.table_rows (snd (App.clear ledger)) = [] /\
  ZoomAttendance._update_list
    (snd (ZoomAttendance.clear_data true ledger)) = [] /\
  App.render [] = App.NoData /\
  App.csv_data [] = [] /\
  ZoomAttendance.export_rows [] = [] /\
  (forall filepath writable,
     ZoomAttendance.export_csv [] filepath writable =
     ZoomAttendance.NothingToExport).
Proof.
  assert (Hyes : ZoomAttendance.clear_data true ledger = (Ok tt, [])).
  { destruct ledger; reflexivity. }
  assert (Hno : ZoomAttendance.clear_data false ledger = (Ok tt, ledger)).
  { destruct ledger; reflexivity. }
  rewrite Hyes, Hno. repeat split.
Qed.

End Ledger.

(* ================================================================== *)
(** * Ordering and [sorted] *)
(* ================================================================== *)

(** Lexicographic comparison of lists inherits the laws of the comparison
    of their elements. *)
Section ListCompare.
Variable A : Type.
Variable cmp : A -> A -> comparison.
Hypothesis cmp_eq : forall a b, cmp a b = Eq <-> a = b.
Hypothesis cmp_antisym : forall a b, cmp b a = CompOpp (cmp a b).
Hypothesis cmp_trans :
  forall a b c, cmp a b = Lt -> cmp b c = Lt -> cmp a c = Lt.

Lemma list_compare_eq (a b : list A) :
  Py.list_compare cmp a b = Eq <-> a = b.
Proof.
  revert b; induction a as [|x a IH]; intros [|y b]; simpl;
    try (split; congruence).
  destruct (cmp x y) eqn:E.
  - apply cmp_eq in E; subst y. rewrite IH. split; congruence.
  - split; [discriminate|]. intros [= -> _].
    assert (cmp y y = Eq) by (apply cmp_eq; reflexivity). congruence.
  - split; [discriminate|]. intros [= -> _].
    assert (cmp y y = Eq) by (apply cmp_eq; reflexivity). congruence.
Qed.

Lemma list_compare_antisym (a b : list A) :
  Py.list_compare cmp b a = CompOpp (Py.list_compare cmp a b).
Proof.
  revert b; induction a as [|x a IH]; intros [|y b]; simpl; try reflexivity.
  rewrite (cmp_antisym x y). destruct (cmp x y); simpl; auto.
Qed.

Lemma list_compare_trans (a b c : list A) :
  Py.list_compare cmp a b = Lt -> Py.list_compare cmp b c = Lt ->
  Py.list_compare cmp a c = Lt.
Proof.
  revert b c; induction a as [|x a IH]; intros [|y b] [|z c]; simpl;
    try congruence.
  destruct (cmp x y) eqn:Exy; try discriminate.
  - apply cmp_eq in Exy; subst y.
    destruct (cmp x z); try congruence. apply IH.
  - intros _. destruct (cmp y z) eqn:Eyz; try discriminate.
    + apply cmp_eq in Eyz; subst z. rewrite Exy. reflexivity.
    + rewrite (cmp_trans Exy Eyz). reflexivity.
Qed.

End ListCompare.

Section Order.
Import Py.

Lemma str_compare_eq (a b : str) : str_compare a b = Eq <-> a = b.
Proof. apply list_compare_eq. apply N.compare_eq_iff. Qed.

Lemma str_compare_antisym (a b : str) :
  str_compare b a = CompOpp (str_compare a b).
Proof. apply list_compare_antisym. intros; apply N.compare_antisym. Qed.

Lemma str_compare_trans (a b c : str) :
  str_compare a b = Lt -> str_compare b c = Lt -> str_compare a c = Lt.
Proof.
  apply list_compare_trans.
  - apply N.compare_eq_iff.
  - intros x y z. rewrite !N.compare_lt_iff. apply N.lt_trans.
Qed.

Lemma item_compare_eq (a b : str * list str) :
  item_compare a b = Eq <-> a = b.
Proof.
  destruct a as [n1 t1], b as [n2 t2]. unfold item_compare; simpl.
  destruct (str_compare n1 n2) eqn:E.
  - apply str_compare_eq in E; subst n2.
    rewrite (list_compare_eq str_compare str_compare_eq). split; congruence.
  - split; [discriminate|]. intros [= -> _].
    assert (str_compare n2 n2 = Eq) by (apply str_compare_eq; reflexivity).
    congruence.
  - split; [discriminate|]. intros [= -> _].
    assert (str_compare n2 n2 = Eq) by (apply str_compare_eq; reflexivity).
    congruence.
Qed.

Lemma item_compare_antisym (a b : str * list str) :
  item_compare b a = CompOpp (item_compare a b).
Proof.
  unfold item_compare. rewrite (str_compare_antisym (fst a) (fst b)).
  destruct (str_compare (fst a) (fst b)); simpl; auto.
  apply list_compare_antisym. apply str_compare_antisym.
Qed.

Lemma item_compare_trans (a b c : str * list str) :
  item_compare a b = Lt -> item_compare b c = Lt -> item_compare a c = Lt.
Proof.
  unfold item_compare.
  destruct (str_compare (fst a) (fst b)) eqn:Eab; try discriminate.
  - apply str_compare_eq in Eab. rewrite <- Eab.
    destruct (str_compare (fst a) (fst c)); try congruence.
    apply list_compare_trans;
      [apply str_compare_eq | apply str_compare_trans].
  - intros _. destruct (str_compare (fst b) (fst c)) eqn:Ebc; try discriminate.
    + apply str_compare_eq in Ebc. rewrite <- Ebc, Eab. reflexivity.
    + rewrite (str_compare_trans _ _ _ Eab Ebc). reflexivity.
Qed.

(** [a <= b] for items: not [b < a]. *)
Lemma item_le_iff (a b : str * list str) :
  item_ltb b a = false <-> item_compare a b <> Gt.
Proof.
  unfold item_ltb. rewrite (item_compare_antisym a b).
  destruct (item_compare a b); simpl; split; congruence.
Qed.

Lemma item_le_trans (a b c : str * list str) :
  item_ltb b a = false -> item_ltb c b = false -> item_ltb c a = false.
Proof.
  rewrite !item_le_iff. intros Hab Hbc.
  destruct (item_compare a b) eqn:Eab; [| |congruence].
  - apply item_compare_eq in Eab; subst; exact Hbc.
  - destruct (item_compare b c) eqn:Ebc; [| |congruence].
    + apply item_compare_eq in Ebc; subst. congruence.
    + rewrite (item_compare_trans _ _ _ Eab Ebc). discriminate.
Qed.

Lemma item_le_antisym (a b : str * list str) :
  item_ltb b a = false -> item_ltb a b = false -> a = b.
Proof.
  rewrite !item_le_iff, (item_compare_antisym a b).
  destruct (item_compare a b) eqn:E; simpl; try congruence.
  intros _ _. apply item_compare_eq; exact E.
Qed.

Lemma item_lt_le (a b : str * list str) :
  item_ltb a b = true -> item_ltb b a = false.
Proof.
  unfold item_ltb. rewrite (item_compare_antisym a b).
  destruct (item_compare a b); simpl; congruence.
Qed.

End Order.

(** The stable insertion sort, for any [<] whose [<=] is a total order. *)
Section Sorting.
Variable A : Type.
Variable ltb : A -> A -> bool.
Let le (a b : A) : Prop := ltb b a = false.
Hypothesis lt_le : forall a b, ltb a b = true -> le a b.
Hypothesis le_trans : forall a b c, le a b -> le b c -> le a c.
Hypothesis le_antisym : forall a b, le a b -> le b a -> a = b.

Lemma insert_perm x (l : list A) : Permutation (x :: l) (Py.insert ltb x l).
Proof.
  induction l as [|y l IH]; simpl; [reflexivity|].
  destruct (ltb y x); [|reflexivity].
  rewrite perm_swap. constructor. exact IH.
Qed.

Lemma sorted_by_perm (l : list A) : Permutation l (Py.sorted_by ltb l).
Proof.
  induction l as [|x l IH]; simpl; [constructor|].
  rewrite <- insert_perm. constructor. exact IH.
Qed.

Lemma insert_sorted x (l : list A) :
  StronglySorted le l -> StronglySorted le (Py.insert ltb x l).
Proof.
  induction 1 as [|y l Hl IH Hy]; simpl.
  - repeat constructor.
  - destruct (ltb y x) eqn:E.
    + constructor; [exact IH|].
      rewrite Forall_forall in *. intros z Hz.
      apply (Permutation_in _ (Permutation_sym (insert_perm x l))) in Hz.
      destruct Hz as [<-|Hz]; [apply lt_le; exact E | auto].
    + constructor; [constructor; assumption|].
      constructor; [exact E|].
      rewrite Forall_forall in *. intros z Hz.
      apply le_trans with y; [exact E | auto].
Qed.

Lemma sorted_by_sorted (l : list A) : StronglySorted le (Py.sorted_by ltb l).
Proof.
  induction l as [|x l IH]; simpl; [constructor | apply insert_sorted, IH].
Qed.

(** A list has one sorted arrangement only. *)
Lemma sorted_unique (l1 : list A) : forall l2,
  Permutation l1 l2 -> StronglySorted le l1 -> StronglySorted le l2 ->
  l1 = l2.
Proof.
  induction l1 as [|a l1 IH]; intros l2 Hp H1 H2.
  - apply Permutation_nil in Hp. congruence.
  - destruct l2 as [|b l2];
      [apply Permutation_sym, Permutation_nil in Hp; discriminate|].
    inversion H1 as [|? ? Hs1 Ha]; inversion H2 as [|? ? Hs2 Hb]; subst.
    rewrite Forall_forall in Ha, Hb.
    assert (E : a = b).
    { assert (Hin_a : In a (b :: l2))
        by (apply (Permutation_in _ Hp); left; reflexivity).
      assert (Hin_b : In b (a :: l1))
        by (apply (Permutation_in _ (Permutation_sym Hp)); left; reflexivity).
      destruct Hin_a as [?|Hin_a]; [congruence|].
      destruct Hin_b as [?|Hin_b]; [congruence|].
      apply le_antisym; auto. }
    subst b. f_equal. apply IH; auto.
    apply Permutation_cons_inv with a. exact Hp.
Qed.

Lemma sorted_by_order_independent (l l' : list A) :
  Permutation l l' -> Py.sorted_by ltb l = Py.sorted_by ltb l'.
Proof.
  intros Hp. apply sorted_unique; try apply sorted_by_sorted.
  rewrite <- !sorted_by_perm. exact Hp.
Qed.

End Sorting.

(* ================================================================== *)
(** * The report builder *)
(* ================================================================== *)

Section Report.
Import Py.

Lemma sorted_perm (items : list (str * list str)) :
  Permutation items (sorted items).
Proof. apply sorted_by_perm. Qed.

Lemma sorted_sorted (items : list (str * list str)) :
  StronglySorted (fun a b => item_ltb b a = false) (sorted items).
Proof.
  apply sorted_by_sorted; [apply item_lt_le | apply item_le_trans].
Qed.

Lemma sorted_order_independent (items items' : list (str * list str)) :
  Permutation items items' -> sorted items = sorted items'.
Proof.
  apply sorted_by_order_independent;
    [apply item_lt_le | apply item_le_trans | apply item_le_antisym].
Qed.

Lemma sorted_wf (data : dict) : dict_wf data -> dict_wf (sorted data).
Proof.
  unfold dict_wf, dict_keys. intros H.
  apply (Permutation_NoDup (l := map fst data)); [|exact H].
  apply Permutation_map, sorted_perm.
Qed.

(** With unique keys, sorted items have strictly ascending names. *)
Lemma sorted_names_ascending (items : list (str * list str)) :
  NoDup (map fst items) ->
  StronglySorted (fun a b => item_ltb b a = false) items ->
  StronglySorted (fun a b => str_compare (fst a) (fst b) = Lt) items.
Proof.
  intros Hnd Hs. induction Hs as [|a l Hl IH Ha]; [constructor|].
  simpl in Hnd. inversion Hnd as [|? ? Hnot Hnd']; subst.
  constructor; [apply IH; exact Hnd'|].
  rewrite Forall_forall in *. intros x Hx.
  specialize (Ha x Hx). apply item_le_iff in Ha. unfold item_compare in Ha.
  destruct (str_compare (fst a) (fst x)) eqn:E; [|reflexivity|congruence].
  apply str_compare_eq in E. exfalso. apply Hnot. rewrite E.
  apply in_map. exact Hx.
Qed.

Lemma StronglySorted_map {A B} (f : A -> B) (R : B -> B -> Prop) (l : list A) :
  StronglySorted (fun a b => R (f a) (f b)) l -> StronglySorted R (map f l).
Proof.
  induction 1 as [|a l Hl IH Ha]; simpl; constructor; [exact IH|].
  rewrite Forall_forall in *. intros y Hy.
  apply in_map_iff in Hy as [x [<- Hx]]. auto.
Qed.

Lemma table_rows_names (data : dict) :
  map App.row_name (App.table_rows data) = map fst (sorted data).
Proof. unfold App.table_rows, dict_items. rewrite map_map. reflexivity. Qed.

(** The tree view of the Tk program shows the rows of the web table. *)
Lemma update_list_table_rows (data : dict) :
  ZoomAttendance._update_list data =
  map (fun r => (App.row_name r, App.row_first r, App.row_count r))
      (App.table_rows data).
Proof.
  unfold ZoomAttendance._update_list, App.table_rows. rewrite map_map.
  reflexivity.
Qed.

(** C4 -- Report builder contract.  For every ledger (a dict, so with
    unique keys): the report has as many rows as the ledger has entries;
    the names of its rows are in strictly ascending lexicographic order;
    every entry has its row, holding the name, the first time of the
    entry and the number of its times, and every row is the row of an
    entry; the report does not depend on the order in which the entries
    were inserted; the Tk program's tree view shows the same rows. *)
Theorem report_contract (data : dict) :
  dict_wf data ->
  length (App.table_rows data) = length data /\
  StronglySorted (fun a b => str_compare a b = Lt)
    (map App.row_name (App.table_rows data)) /\
  (forall name times, dict_get data name = Some times ->
     In {| App.row_name := name;
           App.row_first := App.first_or_empty times;
           App.row_count := length times |} (App.table_rows data)) /\
  (forall r, In r (App.table_rows data) ->
     exists times,
       dict_get data (App.row_name r) = Some times /\
       App.row_count r = length times /\
       (forall first rest, times = first :: rest -> App.row_first r = first)) /\
  (forall data', Permutation data data' ->
     App.table_rows data' = App.table_rows data) /\
  ZoomAttendance._update_list data =
    map (fun r => (App.row_name r, App.row_first r, App.row_count r))
        (App.table_rows data).
Proof.
  intros Hwf. split; [|split; [|split; [|split; [|split]]]].
  - unfold App.table_rows, dict_items. rewrite length_map.
    symmetry. apply Permutation_length, sorted_perm.
  - rewrite table_rows_names. apply StronglySorted_map.
    apply sorted_names_ascending; [apply sorted_wf; exact Hwf|].
    apply sorted_sorted.
  - intros name times Hget. apply dict_get_In in Hget.
    unfold App.table_rows, dict_items.
    apply (Permutation_in _ (sorted_perm data)) in Hget.
    apply (in_map (fun item =>
             {| App.row_name := fst item;
                App.row_first := App.first_or_empty (snd item);
                App.row_count := length (snd item) |})) in Hget.
    exact Hget.
  - intros r Hr. unfold App.table_rows, dict_items in Hr.
    apply in_map_iff in Hr as [[name times] [<- Hin]].
    apply (Permutation_in _ (Permutation_sym (sorted_perm data))) in Hin.
    exists times. simpl. split; [apply dict_In_get; assumption|].
    split; [reflexivity|]. intros first rest ->. reflexivity.
  - intros data' Hp. unfold App.table_rows, dict_items.
    rewrite (sorted_order_independent Hp). reflexivity.
  - apply update_list_table_rows.
Qed.

Lemma NoDup_three (a b c : str) :
  a <> b -> a <> c -> b <> c -> NoDup [a; b; c].
Proof.
  intros Hab Hac Hbc. constructor; [simpl; intuition congruence|].
  apply NoDup_two. exact Hbc.
Qed.

(** Testable property 4: entries added in the order Carol, Alice, Bob are
    reported in the order Alice, Bob, Carol. *)
Lemma report_contract_witness :
  let data := [(u "Carol", [u "10:00"]); (u "Alice", [u "10:00"; u "11:00"]);
               (u "Bob", [u "11:00"])] in
  map App.row_name (App.table_rows data) = [u "Alice"; u "Bob"; u "Carol"] /\
  length (App.table_rows data) = length data /\
  StronglySorted (fun a b => str_compare a b = Lt)
    (map App.row_name (App.table_rows data)).
Proof.
  intros data. split; [reflexivity|].
  assert (Hwf : dict_wf data) by (apply NoDup_three; discriminate).
  split; [exact (proj1 (report_contract Hwf))|].
  exact (proj1 (proj2 (report_contract Hwf))).
Defined.

End Report.

(* ================================================================== *)
(** * The export and its round trip *)
(* ================================================================== *)

Section ExportRoundTrip.
Import Py CsvReader.

(** ** Decimal numbers *)

Lemma undigits_digits (d : Decimal.uint) : undigits (digits d) = Some d.
Proof. induction d; simpl; try rewrite IHd; reflexivity. Qed.

Lemma digits_nonempty (d : Decimal.uint) : d <> Decimal.Nil -> digits d <> [].
Proof. destruct d; simpl; congruence. Qed.

Lemma to_uint_nonnil (n : nat) : Nat.to_uint n <> Decimal.Nil.
Proof.
  rewrite <- (DecimalNat.Unsigned.of_to n) at 1.
  rewrite DecimalNat.Unsigned.to_of. apply DecimalFacts.unorm_nonnil.
Qed.

Lemma int_of_str_of_int (n : nat) : int_of_str (str_of_int n) = Some n.
Proof.
  unfold int_of_str, str_of_int.
  pose proof (digits_nonempty (to_uint_nonnil n)) as Hne.
  destruct (digits (Nat.to_uint n)) eqn:E; [congruence|].
  rewrite <- E, undigits_digits. simpl.
  rewrite DecimalNat.Unsigned.of_to. reflexivity.
Qed.

(** ** The reader on written fields *)

Lemma run_app (r : reader) (a b : str) :
  run r (a ++ b) =
  match run r a with
  | Some r' => run r' b
  | None => None
  end.
Proof.
  revert r. induction a as [|c a IH]; intros r; cbn [app run]; [reflexivity|].
  destruct (step r c); [apply IH | reflexivity].
Qed.

Lemma fits_app_cons (cur : str) (c : char) (f : str) :
  fits (cur ++ c :: f) = true ->
  (N.of_nat (length cur) <? field_size_limit)%N = true /\
  fits ((cur ++ [c]) ++ f) = true.
Proof.
  unfold fits. rewrite <- app_assoc. cbn [app]. intros H. split; [|exact H].
  apply N.leb_le in H. apply N.ltb_lt.
  rewrite length_app in H. cbn [length] in H. lia.
Qed.

Lemma fits_nil : fits [] = true.
Proof. reflexivity. Qed.

Lemma plain_true (c : char) :
  plain c = true ->
  N.eqb c delimiter = false /\ N.eqb c quotechar = false /\
  is_newline c = false.
Proof.
  unfold plain.
  destruct (N.eqb c delimiter), (N.eqb c quotechar), (is_newline c);
    simpl; intros; try discriminate; auto.
Qed.

(** Inside an unquoted field, plain characters accumulate. *)
Lemma run_unquoted (f : str) : forall cur fs recs,
  forallb plain f = true -> fits (cur ++ f) = true ->
  run (mkReader IN_FIELD cur fs recs) f =
  Some (mkReader IN_FIELD (cur ++ f) fs recs).
Proof.
  induction f as [|c f IH]; intros cur fs recs Hp Hfit.
  - cbn [run]. rewrite app_nil_r. reflexivity.
  - cbn [forallb] in Hp. apply andb_true_iff in Hp as [Hc Hp].
    apply plain_true in Hc as [Hd [_ Hn]].
    apply fits_app_cons in Hfit as [Hlt Hfit].
    cbn [run]. unfold step. cbn [st]. rewrite Hn, Hd.
    unfold add_char. cbn [field fields records]. rewrite Hlt.
    rewrite IH by assumption. rewrite <- app_assoc. reflexivity.
Qed.

(** Inside a quoted field, the doubled quotes are read back as one. *)
Lemma run_quoted (f : str) : forall cur fs recs,
  fits (cur ++ f) = true ->
  run (mkReader IN_QUOTED_FIELD cur fs recs) (double_quotes f) =
  Some (mkReader IN_QUOTED_FIELD (cur ++ f) fs recs).
Proof.
  induction f as [|c f IH]; intros cur fs recs Hfit.
  - cbn [double_quotes flat_map run]. rewrite app_nil_r. reflexivity.
  - apply fits_app_cons in Hfit as [Hlt Hfit].
    unfold double_quotes. cbn [flat_map]. fold (double_quotes f).
    destruct (N.eqb c quotechar) eqn:E.
    + apply N.eqb_eq in E; subst c. cbn [app run].
      unfold step at 1. cbn [st]. rewrite N.eqb_refl. unfold goto.
      cbn [field fields records].
      unfold step at 1. cbn [st]. rewrite N.eqb_refl.
      unfold add_char. cbn [field fields records]. rewrite Hlt.
      rewrite IH by assumption. rewrite <- app_assoc. reflexivity.
    + cbn [app run]. unfold step at 1. cbn [st]. rewrite E.
      unfold add_char. cbn [field fields records]. rewrite Hlt.
      rewrite IH by assumption. rewrite <- app_assoc. reflexivity.
Qed.

(** A written field, read from the start of a field. *)
Lemma run_write_field (lt f : str) fs recs :
  line_safe lt f -> fits f = true ->
  run (mkReader START_FIELD [] fs recs) (write_field lt f) =
  Some (mkReader (field_end_state lt f) f fs recs).
Proof.
  intros Hsafe Hfit. unfold write_field, field_end_state, line_safe in *.
  destruct (needs_quotes lt f) eqn:Hq.
  - cbn [run]. unfold step at 1. cbn [st]. unfold start_field.
    replace (is_newline quotechar) with false by reflexivity.
    rewrite N.eqb_refl. unfold goto. cbn [field fields records].
    rewrite run_app, run_quoted by exact Hfit. cbn [app run].
    unfold step. cbn [st]. rewrite N.eqb_refl. reflexivity.
  - specialize (Hsafe eq_refl). destruct f as [|c f]; [reflexivity|].
    cbn [forallb] in Hsafe. apply andb_true_iff in Hsafe as [Hc Hp].
    apply plain_true in Hc as [Hd [Hqc Hn]].
    apply (fits_app_cons []) in Hfit as [Hlt Hfit].
    cbn [run]. unfold step at 1. cbn [st]. unfold start_field.
    rewrite Hn, Hqc, Hd. unfold add_char. cbn [field fields records].
    rewrite Hlt. cbn [app]. apply run_unquoted; assumption.
Qed.

(** After a written field, the delimiter stores the field ... *)
Lemma step_delimiter (lt f : str) fs recs :
  step (mkReader (field_end_state lt f) f fs recs) delimiter =
  Some (mkReader START_FIELD [] (fs ++ [f]) recs).
Proof.
  unfold field_end_state. destruct (needs_quotes lt f); [reflexivity|].
  destruct f; reflexivity.
Qed.

(** ... and the line terminator stores the field and returns the record. *)
Lemma run_lineterminator (lt f : str) fs recs :
  lt = excel \/ lt = [LF] ->
  run (mkReader (field_end_state lt f) f fs recs) lt =
  Some (mkReader START_RECORD [] [] (recs ++ [fs ++ [f]])).
Proof.
  unfold field_end_state.
  intros [-> | ->]; (destruct (needs_quotes _ f); [reflexivity|]);
    destruct f; reflexivity.
Qed.

(** The fields of one row, joined by delimiters and ended by the line
    terminator, read from the start of a field. *)
Lemma run_fields (lt : str) (rest : list str) : forall f fs recs,
  lt = excel \/ lt = [LF] ->
  Forall (fun g => line_safe lt g /\ fits g = true) (f :: rest) ->
  run (mkReader START_FIELD [] fs recs)
      (join [delimiter] (map (write_field lt) (f :: rest)) ++ lt) =
  Some (mkReader START_RECORD [] [] (recs ++ [fs ++ f :: rest])).
Proof.
  induction rest as [|g rest IH]; intros f fs recs Hlt Hall;
    inversion Hall as [|f' rest' [Hsafe Hfit] Hrest]; subst.
  - cbn [map join]. rewrite run_app, run_write_field by assumption.
    apply run_lineterminator. exact Hlt.
  - change (join [delimiter] (map (write_field lt) (f :: g :: rest)))
      with (write_field lt f ++ [delimiter] ++
            join [delimiter] (map (write_field lt) (g :: rest))).
    rewrite <- !app_assoc, run_app, run_write_field by assumption.
    cbn [app run]. rewrite step_delimiter, IH by assumption.
    rewrite <- app_assoc. reflexivity.
Qed.

(** At the start of a record, a character that is not a line break is
    read as at the start of a field. *)
Lemma run_start_record (c : char) (t : str) cur fs recs :
  is_newline c = false ->
  run (mkReader START_RECORD cur fs recs) (c :: t) =
  run (mkReader START_FIELD cur fs recs) (c :: t).
Proof.
  intros Hn. cbn [run]. unfold step. cbn [st]. unfold start_record.
  rewrite Hn. reflexivity.
Qed.

Lemma join_cons2 (sep p q : str) (ps : list str) :
  join sep (p :: q :: ps) = p ++ sep ++ join sep (q :: ps).
Proof. reflexivity. Qed.

Lemma join_cons_app (sep p : str) (ps : list str) :
  exists tail, join sep (p :: ps) = p ++ tail.
Proof.
  destruct ps as [|q ps].
  - exists []. simpl. rewrite app_nil_r. reflexivity.
  - exists (sep ++ join sep (q :: ps)). reflexivity.
Qed.

(** A written row that is not the single empty field does not begin with
    a line break. *)
Lemma written_row_first_char (lt f : str) (rest : list str) :
  f :: rest <> [[]] -> line_safe lt f ->
  exists c t,
    join [delimiter] (map (write_field lt) (f :: rest)) ++ lt = c :: t
    /\ is_newline c = false.
Proof.
  intros Hne Hsafe. cbn [map]. unfold line_safe in Hsafe.
  destruct (needs_quotes lt f) eqn:Hq.
  - destruct (join_cons_app [delimiter] (write_field lt f)
                (map (write_field lt) rest)) as [tail ->].
    unfold write_field. rewrite Hq. cbn [app]. eexists _, _.
    split; reflexivity.
  - destruct f as [|c f].
    + destruct rest as [|g rest]; [exfalso; apply Hne; reflexivity|].
      cbn [map]. rewrite join_cons2. unfold write_field at 1. rewrite Hq.
      cbn [app]. eexists _, _. split; reflexivity.
    + destruct (join_cons_app [delimiter] (write_field lt (c :: f))
                  (map (write_field lt) rest)) as [tail ->].
      unfold write_field. rewrite Hq. cbn [app].
      specialize (Hsafe eq_refl). cbn [forallb] in Hsafe.
      apply andb_true_iff in Hsafe as [Hc _].
      apply plain_true in Hc as [_ [_ Hn]]. eexists _, _.
      split; [reflexivity | exact Hn].
Qed.

Lemma run_row_fields (lt f : str) (rest : list str) recs :
  lt = excel \/ lt = [LF] ->
  Forall (fun g => line_safe lt g /\ fits g = true) (f :: rest) ->
  f :: rest <> [[]] ->
  run (mkReader START_RECORD [] [] recs)
      (join [delimiter] (map (write_field lt) (f :: rest)) ++ lt) =
  Some (mkReader START_RECORD [] [] (recs ++ [f :: rest])).
Proof.
  intros Hlt Hall Hmany.
  assert (Hsafe : line_safe lt f) by (inversion Hall; tauto).
  destruct (written_row_first_char Hmany Hsafe) as [c [t [Htext Hn]]].
  rewrite Htext, run_start_record by exact Hn. rewrite <- Htext.
  apply run_fields; assumption.
Qed.

(** One written row is read back as one record, field by field. *)
Lemma run_writerow (lt : str) (row : list value) recs :
  lt = excel \/ lt = [LF] ->
  Forall (fun g => line_safe lt g /\ fits g = true) (map to_str row) ->
  run (mkReader START_RECORD [] [] recs) (writerow lt row) =
  Some (mkReader START_RECORD [] [] (recs ++ [map to_str row])).
Proof.
  intros Hlt Hall. unfold writerow.
  destruct (map to_str row) as [|f rest] eqn:E.
  - destruct Hlt as [-> | ->]; reflexivity.
  - destruct f as [|c f]; [destruct rest as [|g rest]|].
    + destruct Hlt as [-> | ->]; reflexivity.
    + cbv iota. apply run_row_fields; [assumption | assumption | discriminate].
    + cbv iota. apply run_row_fields; [assumption | assumption | discriminate].
Qed.

Lemma run_rows (lt : str) (rows : list (list value)) : forall recs,
  lt = excel \/ lt = [LF] ->
  Forall (Forall (fun g => line_safe lt g /\ fits g = true))
    (map (map to_str) rows) ->
  run (mkReader START_RECORD [] [] recs) (concat (map (writerow lt) rows)) =
  Some (mkReader START_RECORD [] [] (recs ++ map (map to_str) rows)).
Proof.
  induction rows as [|row rows IH]; intros recs Hlt Hall.
  - cbn [map concat run]. rewrite app_nil_r. reflexivity.
  - cbn [map] in Hall. inversion Hall as [|r rs Hrow Hrows]; subst.
    cbn [map concat]. rewrite run_app, run_writerow, IH by assumption.
    rewrite <- app_assoc. reflexivity.
Qed.

(** Whatever the fields hold (delimiters, quotes, and line breaks when
    the writer quotes them), the text written by [csv.writer] is read
    back as the rows written, provided no field is longer than the
    reader's limit. *)
Lemma read_written (lt : str) (rows : list (list value)) :
  lt = excel \/ lt = [LF] ->
  Forall (Forall (fun g => line_safe lt g /\ fits g = true))
    (map (map to_str) rows) ->
  read (concat (map (writerow lt) rows)) = Some (map (map to_str) rows).
Proof.
  intros Hlt Hall. unfold read, initial. rewrite run_rows by assumption.
  reflexivity.
Qed.

(** ** Fields the reader refuses *)



(** ** Which fields are read back *)

Lemma line_safe_excel (f : str) : line_safe excel f.
Proof.
  unfold line_safe, needs_quotes. induction f as [|c f IH]; [reflexivity|].
  cbn [existsb forallb]. intros H. apply orb_false_iff in H as [Hc Hf].
  rewrite (IH Hf), andb_true_r. revert Hc.
  unfold special, plain, is_newline, excel. cbn [existsb].
  destruct (N.eqb c delimiter), (N.eqb c quotechar), (N.eqb c CR),
    (N.eqb c LF); simpl; congruence.
Qed.

Lemma line_safe_LF (f : str) : has_CR f = false -> line_safe [LF] f.
Proof.
  unfold line_safe, needs_quotes, has_CR.
  induction f as [|c f IH]; [reflexivity|].
  cbn [existsb forallb]. intros Hcr H.
  apply orb_false_iff in Hcr as [Hcr Hcrs].
  apply orb_false_iff in H as [Hc Hf].
  rewrite (IH Hcrs Hf), andb_true_r. revert Hc Hcr.
  unfold special, plain, is_newline. cbn [existsb].
  destruct (N.eqb c delimiter), (N.eqb c quotechar), (N.eqb c CR),
    (N.eqb c LF); simpl; congruence.
Qed.

Lemma Forall_concat {A} (P : A -> Prop) (ls : list (list A)) :
  Forall P (concat ls) -> Forall (Forall P) ls.
Proof.
  induction ls as [|l ls IH]; [constructor|].
  cbn [concat]. intros H. apply Forall_app in H as [Hl Hls].
  constructor; [exact Hl | apply IH; exact Hls].
Qed.

(** The fields of an export (header included) are read back when the
    data fields fit the limit and, for a line feed as line terminator,
    hold no carriage return. *)
Lemma export_fields_readable (lt : str) (data : dict) :
  lt = excel \/ lt = [LF] /\ existsb has_CR (export_fields data) = false ->
  forallb fits (export_fields data) = true ->
  Forall (Forall (fun g => line_safe lt g /\ fits g = true))
    (map (map to_str) (ZoomAttendance.header :: ZoomAttendance.export_rows data)).
Proof.
  intros Hlt Hfit. cbn [map]. constructor.
  - destruct Hlt as [-> | [-> _]];
      repeat constructor;
      solve [apply line_safe_excel | apply line_safe_LF; reflexivity].
  - apply Forall_concat. fold (export_fields data).
    rewrite forallb_forall in Hfit. apply Forall_forall. intros g Hg.
    split; [|apply Hfit; exact Hg].
    destruct Hlt as [-> | [-> Hcr]]; [apply line_safe_excel|].
    apply line_safe_LF. destruct (has_CR g) eqn:E; [|reflexivity].
    assert (existsb has_CR (export_fields data) = true)
      by (apply existsb_exists; eauto).
    congruence.
Qed.

(** ** The exported rows *)

Lemma csv_data_export_rows (data : dict) :
  App.csv_data data = ZoomAttendance.export_rows data.
Proof. reflexivity. Qed.


Lemma traverse_export_rows (items : list (str * list str)) :
  traverse record_pair
    (map (map to_str)
       (map (fun item =>
               [VStr (fst item); VStr (App.first_or_empty (snd item));
                VInt (length (snd item)); VStr (join (u "; ") (snd item))])
            items)) =
  Some (map (fun item => (fst item, length (snd item))) items).
Proof.
  induction items as [|item items IH]; [reflexivity|].
  cbn [map traverse]. rewrite IH.
  unfold record_pair. cbn [to_str]. rewrite int_of_str_of_int. reflexivity.
Qed.

(** The text an export writes with line terminator [lt], read back and
    parsed into pairs. *)
Lemma to_csv_round_trip (lt : str) (data : dict) :
  lt = excel \/ lt = [LF] /\ existsb has_CR (export_fields data) = false ->
  forallb fits (export_fields data) = true ->
  read (App.to_csv lt data) =
    Some (map (map to_str) (App.columns :: App.csv_data data)) /\
  exists pairs,
    parse_export (App.to_csv lt data) = Some pairs /\
    Permutation pairs (ledger_pairs data).
Proof.
  intros Hlt Hfit.
  assert (Hread : read (App.to_csv lt data) =
            Some (map (map to_str) (App.columns :: App.csv_data data))).
  { unfold App.to_csv. apply read_written; [tauto|].
    apply export_fields_readable; assumption. }
  split; [exact Hread|].
  exists (ledger_pairs (sorted data)). split.
  - unfold parse_export. rewrite Hread. cbn [map].
    apply traverse_export_rows.
  - unfold ledger_pairs, dict_items. apply Permutation_map.
    apply Permutation_sym, sorted_perm.
Qed.




(** Testable property 5: the row of Dana with the records [T1; T2], and
    the exported file read back. *)
Example export_dana :
  let t1 := u "2024-05-01 10:00:00" in
  let t2 := u "2024-05-01 10:05:00" in
  let data := [(u "Dana", [t1; t2])] in
  ZoomAttendance.export_rows data =
    [[VStr (u "Dana"); VStr t1; VInt 2;
      VStr (u "2024-05-01 10:00:00; 2024-05-01 10:05:00")]] /\
  parse_export (ZoomAttendance.export_text data) = Some [(u "Dana", 2)] /\
  parse_export (App.to_csv [LF] data) = Some [(u "Dana", 2)].
Proof. repeat split; reflexivity. Qed.

(** A name that holds a delimiter, a quote and a carriage return comes
    back unchanged from the text [export_csv] writes. *)
Example export_special_characters :
  let name := u "Doe, " ++ [quotechar] ++ u "J" ++ [quotechar; CR] ++ u "x" in
  parse_export (ZoomAttendance.export_text [(name, [u "10:00"])]) =
  Some [(name, 1)].
Proof. reflexivity. Qed.

End ExportRoundTrip.

(* ================================================================== *)
(** * More on the merge loop: repeated names and whole sessions *)
(* ================================================================== *)

Section MergeSessions.
Import Py.

Lemma filter_comm {A} (p q : A -> bool) (l : list A) :
  filter p (filter q l) = filter q (filter p l).
Proof.
  rewrite !filter_filter. apply filter_ext. intros x. apply andb_comm.
Qed.

Lemma filter_drop_equal (p : str -> bool) (x : str) (l : list str) :
  p x = false ->
  filter p (filter (fun other => negb (str_eqb other x)) l) = filter p l.
Proof.
  intros Hp. rewrite filter_filter. apply filter_ext. intros y.
  destruct (str_eqb y x) eqn:E; [|reflexivity].
  apply str_eqb_eq in E; subst. rewrite Hp. reflexivity.
Qed.

Lemma dedup_filter (p : str -> bool) (l : list str) :
  Spec.dedup (filter p l) = filter p (Spec.dedup l).
Proof.
  induction l as [|x l IH]; [reflexivity|].
  cbn [filter Spec.dedup]. destruct (p x) eqn:Hp.
  - cbn [Spec.dedup]. rewrite IH. f_equal. apply filter_comm.
  - rewrite IH. symmetry. apply filter_drop_equal. exact Hp.
Qed.

Lemma absent_names_visit_absent now (d : dict) a names :
  absent_names (visit now d a) names =
  filter (fun other => negb (str_eqb other a)) (absent_names d names).
Proof.
  unfold absent_names. rewrite filter_filter. apply filter_ext.
  intros k. unfold dict_contains.
  destruct (str_eqb k a) eqn:E.
  - apply str_eqb_eq in E; subst. rewrite visit_get_same.
    simpl. symmetry. apply andb_false_r.
  - apply str_eqb_neq in E. rewrite visit_get_other by congruence.
    simpl. rewrite andb_true_r. reflexivity.
Qed.

(** The keys created by the visits are the distinct absent names, in the
    order of their first occurrences. *)
Lemma visits_keys_any now names : forall d : dict,
  dict_keys (fold_left (visit now) names d) =
  dict_keys d ++ Spec.dedup (absent_names d names).
Proof.
  induction names as [|a names IH]; intros d.
  - simpl. rewrite app_nil_r. reflexivity.
  - simpl fold_left. rewrite IH, visit_keys, absent_names_visit_absent.
    unfold absent_names at 2. cbn [filter].
    fold (absent_names d names).
    destruct (dict_contains d a) eqn:E; cbn [negb Spec.dedup].
    + f_equal. rewrite dedup_filter.
      assert (Hall : forall k, In k (Spec.dedup (absent_names d names)) ->
                negb (str_eqb k a) = true).
      { intros k Hk. rewrite dedup_In in Hk. unfold absent_names in Hk.
        apply filter_In in Hk as [_ Hk]. apply negb_true_iff.
        apply str_eqb_neq. intros ->. rewrite E in Hk. discriminate. }
      clear IH. induction (Spec.dedup (absent_names d names)) as [|k l IHl];
        [reflexivity|].
      simpl. rewrite (Hall k) by (left; reflexivity).
      f_equal. apply IHl. intros k' Hk'. apply Hall. right; exact Hk'.
    + rewrite <- app_assoc, dedup_filter. reflexivity.
Qed.

Lemma visits_times now names (d : dict) name :
  times_of (fold_left (visit now) names d) name =
  times_of d name ++ repeat now (occurrences name names).
Proof.
  unfold times_of at 1. rewrite visits_get.
  destruct (occurrences name names); [|reflexivity].
  simpl. rewrite app_nil_r. reflexivity.
Qed.

(** X1 -- The merge loop on any list of names, repeated or not (both
    programs): it never raises; every name gains one record per
    occurrence in the list and nothing else changes; the keys created
    are the distinct absent names in first-occurrence order; and
    [new_count] is the number of distinct absent names. *)
Theorem merge_loop_any_names (ledger : dict) (names : list str) (now : str) :
  exists ledger',
    App.merge_loop names now 0 ledger =
      (Ok (length (Spec.dedup (absent_names ledger names))), ledger') /\
    ZoomAttendance.merge_loop names now 0 ledger =
      App.merge_loop names now 0 ledger /\
    (forall name,
       times_of ledger' name =
       times_of ledger name ++ repeat now (occurrences name names)) /\
    dict_keys ledger' =
      dict_keys ledger ++ Spec.dedup (absent_names ledger names).
Proof.
  exists (fold_left (visit now) names ledger).
  rewrite merge_loop_same, merge_loop_run.
  split; [|split; [reflexivity|split]].
  - do 2 f_equal. rewrite !dict_length_keys, visits_keys_any, length_app.
    simpl. lia.
  - intros name. apply visits_times.
  - apply visits_keys_any.
Qed.

(** ** Sessions of submissions *)

Lemma analyze_visits (response : completion) (now : str) (d : dict) :
  snd (App.analyze response now d) =
  fold_left (visit now)
    (match response with
     | Raises _ => []
     | Content content => App.names_of_content content
     end) d.
Proof.
  rewrite analyze_run. destruct response as [e|content]; [reflexivity|].
  cbv zeta. destruct (App.names_of_content content); reflexivity.
Qed.

Lemma occurrences_existsb name names :
  NoDup names ->
  occurrences name names = if existsb (str_eqb name) names then 1 else 0.
Proof.
  intros Hnd. destruct (existsb (str_eqb name) names) eqn:E.
  - apply existsb_exists in E as [k [Hk Heq]]. apply str_eqb_eq in Heq; subst.
    apply occurrences_NoDup; assumption.
  - apply occurrences_zero. intros Hin.
    assert (existsb (str_eqb name) names = true).
    { apply existsb_exists. exists name. split; [exact Hin|apply str_eqb_refl]. }
    congruence.
Qed.

Lemma submit_get (d : dict) (submission : completion * str) name :
  dict_get (submit d submission) name =
  if detects name (fst submission)
  then Some (times_of d name ++ [snd submission])
  else dict_get d name.
Proof.
  destruct submission as [response now]. unfold submit. cbn [fst snd].
  rewrite analyze_visits, visits_get. destruct response as [e|content].
  - reflexivity.
  - cbn [detects]. rewrite occurrences_existsb
      by apply names_of_content_NoDup.
    destruct (existsb (str_eqb name) (App.names_of_content content));
      reflexivity.
Qed.

Lemma session_get (submissions : list (completion * str)) name :
  forall d : dict,
  dict_get (fold_left submit submissions d) name =
  match map snd (filter (fun s => detects name (fst s)) submissions) with
  | [] => dict_get d name
  | history => Some (times_of d name ++ history)
  end.
Proof.
  induction submissions as [|s submissions IH]; intros d; [reflexivity|].
  cbn [fold_left filter]. rewrite IH. unfold times_of at 1.
  rewrite !submit_get.
  destruct (detects name (fst s)); cbn [map].
  - destruct (map snd (filter (fun s0 => detects name (fst s0)) submissions));
      [reflexivity|].
    rewrite <- app_assoc. reflexivity.
  - reflexivity.
Qed.

(** X2 -- The history of a session.  After any sequence of capture-and-
    merge cycles started on the empty ledger, a name is a key exactly
    when some submission detected it, and its records are the times of
    the submissions that detected it, in the order of the submissions
    (failed calls and responses without names leave no trace). *)
Theorem session_history (submissions : list (completion * str)) (name : str) :
  dict_get (fold_left submit submissions []) name =
  match map snd (filter (fun s => detects name (fst s)) submissions) with
  | [] => None
  | history => Some history
  end.
Proof. rewrite session_get. reflexivity. Qed.

(** X3 -- What the report says about a session.  After any sequence of
    cycles started on the empty ledger, a name detected at the times
    [first :: later] (in submission order) has a row in the web table, in
    the tree view and in the export, showing [first] as first recorded
    time and the number of detections as count. *)
Theorem session_report (submissions : list (completion * str)) (name : str)
    (first : str) (later : list str) :
  map snd (filter (fun s => detects name (fst s)) submissions) =
    first :: later ->
  let data := fold_left submit submissions [] in
  In {| App.row_name := name; App.row_first := first;
        App.row_count := S (length later) |} (App.table_rows data) /\
  In (name, first, S (length later)) (ZoomAttendance._update_list data) /\
  In [VStr name; VStr first; VInt (S (length later));
      VStr (join (u "; ") (first :: later))]
     (ZoomAttendance.export_rows data).
Proof.
  intros Hhist data.
  assert (Hget : dict_get data name = Some (first :: later)).
  { unfold data. rewrite session_history, Hhist. reflexivity. }
  apply dict_get_In in Hget.
  apply (Permutation_in _ (sorted_perm data)) in Hget.
  split; [|split].
  - unfold App.table_rows, dict_items.
    apply (in_map (fun item =>
             {| App.row_name := fst item;
                App.row_first := App.first_or_empty (snd item);
                App.row_count := length (snd item) |})) in Hget.
    exact Hget.
  - rewrite update_list_table_rows. unfold App.table_rows, dict_items.
    rewrite map_map.
    apply (in_map (fun item =>
             (fst item, App.first_or_empty (snd item), length (snd item))))
      in Hget.
    exact Hget.
  - unfold ZoomAttendance.export_rows, dict_items.
    apply (in_map (fun item =>
             [VStr (fst item); VStr (App.first_or_empty (snd item));
              VInt (length (snd item)); VStr (join (u "; ") (snd item))]))
      in Hget.
    exact Hget.
Qed.

Lemma session_report_witness :
  let subs := [(Content (u "Alice" ++ [LF] ++ u "Bob"), u "10:00");
               (Raises (UpstreamError (u "timeout")), u "10:05");
               (Content (u "Bob"), u "10:10")] in
  let data := fold_left submit subs [] in
  In {| App.row_name := u "Bob"; App.row_first := u "10:00";
        App.row_count := 2 |} (App.table_rows data) /\
  In (u "Bob", u "10:00", 2) (ZoomAttendance._update_list data) /\
  In [VStr (u "Bob"); VStr (u "10:00"); VInt 2;
      VStr (join (u "; ") [u "10:00"; u "10:10"])]
     (ZoomAttendance.export_rows data).
Proof.
  intros subs data.
  apply (session_report subs (u "Bob") (first := u "10:00")
           (later := [u "10:10"])).
  reflexivity.
Defined.

End MergeSessions.

(* ================================================================== *)
(** * More on the line normalizer *)
(* ================================================================== *)

Section NormalizerMore.
Import Py.

Lemma split_no_sep sep (s : str) : ~ In sep s -> split sep s = [s].
Proof.
  induction s as [|c s IH]; intros Hnot; [reflexivity|].
  rewrite split_cons.
  destruct (N.eqb c sep) eqn:E.
  - apply N.eqb_eq in E. exfalso. apply Hnot. left; exact E.
  - rewrite IH; [reflexivity|]. intros H. apply Hnot. right; exact H.
Qed.

Lemma split_app_sep sep (p rest : str) :
  ~ In sep p -> split sep (p ++ sep :: rest) = p :: split sep rest.
Proof.
  induction p as [|c p IH]; intros Hnot.
  - simpl. rewrite N.eqb_refl. reflexivity.
  - cbn [app]. rewrite split_cons.
    destruct (N.eqb c sep) eqn:E.
    + apply N.eqb_eq in E. exfalso. apply Hnot. left; exact E.
    + rewrite IH; [reflexivity|]. intros H. apply Hnot. right; exact H.
Qed.

Lemma split_join sep (parts : list str) :
  parts <> [] -> (forall p, In p parts -> ~ In sep p) ->
  split sep (join [sep] parts) = parts.
Proof.
  induction parts as [|p parts IH]; intros Hne Hall; [congruence|].
  destruct parts as [|q parts].
  - simpl. apply split_no_sep. apply Hall. left; reflexivity.
  - rewrite join_cons2. cbn [app].
    rewrite split_app_sep by (apply Hall; left; reflexivity).
    rewrite IH; [reflexivity | discriminate |].
    intros r Hr. apply Hall. right; exact Hr.
Qed.

Lemma split_pieces_no_sep sep (s : str) :
  forall p, In p (split sep s) -> ~ In sep p.
Proof.
  induction s as [|c s IH]; intros p Hp.
  - simpl in Hp. destruct Hp as [<-|[]]. simpl. tauto.
  - rewrite split_cons in Hp. destruct (N.eqb c sep) eqn:E.
    + destruct Hp as [<-|Hp]; [simpl; tauto | apply IH; exact Hp].
    + destruct (split_nonempty sep s) as [q [qs Hs]]. rewrite Hs in *.
      destruct Hp as [<-|Hp].
      * intros [Hc|Hq].
        -- subst. rewrite N.eqb_refl in E. discriminate.
        -- apply (IH q); [left; reflexivity | exact Hq].
      * apply IH. right; exact Hp.
Qed.

Lemma lstrip_In (s : str) c : In c (lstrip s) -> In c s.
Proof.
  induction s as [|x s IH]; simpl; [tauto|].
  destruct (isspace x); [auto | simpl; tauto].
Qed.

Lemma rstrip_In (s : str) c : In c (rstrip s) -> In c s.
Proof.
  induction s as [|x s IH]; [simpl; tauto|].
  rewrite rstrip_cons. destruct (rstrip s) as [|k kept].
  - destruct (isspace x); simpl; tauto.
  - intros [->|H]; [left; reflexivity | right; apply IH; exact H].
Qed.

Lemma strip_In (s : str) c : In c (strip s) -> In c s.
Proof. unfold strip. intros H. apply lstrip_In, rstrip_In. exact H. Qed.

Lemma filter_all {A} (p : A -> bool) (l : list A) :
  (forall x, In x l -> p x = true) -> filter p l = l.
Proof.
  induction l as [|x l IH]; intros H; [reflexivity|].
  simpl. rewrite (H x) by (left; reflexivity).
  f_equal. apply IH. intros y Hy. apply H. right; exact Hy.
Qed.

Lemma dedup_NoDup_id (l : list str) : NoDup l -> Spec.dedup l = l.
Proof.
  induction 1 as [|a l Hnot Hnd IH]; [reflexivity|].
  simpl. rewrite IH. f_equal. apply filter_all.
  intros x Hx. apply negb_true_iff, str_eqb_neq. intros ->. tauto.
Qed.

(** A list of clean names, one per line, is returned as it is. *)
Lemma names_of_clean_lines (names : list str) :
  NoDup names ->
  (forall n, In n names ->
     strip n = n /\ 2 <= length n /\ ~ In LF n) ->
  App.names_of_content (join [LF] names) = names.
Proof.
  intros Hnd Hclean. rewrite names_of_content_spec.
  destruct names as [|n0 names0] eqn:En; [reflexivity|]. rewrite <- En in *.
  unfold Spec.normalize, Spec.trimmed_lines.
  rewrite split_join;
    [| rewrite En; discriminate | intros p Hp; apply (Hclean p Hp)].
  assert (Hmap : map strip names = names).
  { clear Hnd En. induction names as [|n names IH]; [reflexivity|].
    simpl. rewrite (proj1 (Hclean n (or_introl eq_refl))). f_equal.
    apply IH. intros m Hm. apply Hclean. right; exact Hm. }
  rewrite Hmap. rewrite !filter_all.
  - apply dedup_NoDup_id. exact Hnd.
  - intros x Hx. destruct (Hclean x Hx) as [_ [Hlen _]].
    destruct x; [simpl in Hlen; lia | reflexivity].
  - intros x Hx. rewrite filter_all in Hx.
    + apply Nat.leb_le. apply (Hclean x Hx).
    + intros y Hy. destruct (Hclean y Hy) as [_ [Hlen _]].
      destruct y; [simpl in Hlen; lia | reflexivity].
Qed.

Lemma names_of_content_clean (raw : str) n :
  In n (App.names_of_content raw) ->
  strip n = n /\ 2 <= length n /\ ~ In LF n.
Proof.
  rewrite names_of_content_spec. intros Hin.
  apply normalize_In in Hin as [Hin Hlen]. unfold Spec.trimmed_lines in Hin.
  apply in_map_iff in Hin as [line [<- Hline]].
  split; [apply strip_idem|]. split; [exact Hlen|].
  intros H. apply strip_In in H.
  exact (split_pieces_no_sep LF raw line Hline H).
Qed.

(** X4 -- The normalizer is idempotent (both programs): writing the
    names it returned one per line and normalizing that text again gives
    the same names in the same order. *)
Theorem normalizer_idempotent (raw : str) :
  App.names_of_content (join [LF] (App.names_of_content raw)) =
    App.names_of_content raw /\
  ZoomAttendance.names_of_content
    (join [LF] (ZoomAttendance.names_of_content raw)) =
    ZoomAttendance.names_of_content raw.
Proof.
  rewrite names_of_content_same.
  assert (H : App.names_of_content (join [LF] (App.names_of_content raw)) =
              App.names_of_content raw).
  { apply names_of_clean_lines.
    - apply names_of_content_NoDup.
    - intros n Hn. apply (names_of_content_clean raw). exact Hn. }
  split; exact H.
Qed.

(** ** Line endings *)

Lemma crlf_cons c (t : str) :
  crlf (c :: t) = (if N.eqb c LF then [CR; LF] else [c]) ++ crlf t.
Proof. reflexivity. Qed.

(** Carriage returns before the line feeds are trailing white space of
    the lines. *)
Lemma crlf_lines (t : str) :
  map rstrip (split LF (crlf t)) = map rstrip (split LF t).
Proof.
  induction t as [|c t IH]; [reflexivity|].
  rewrite crlf_cons. destruct (N.eqb c LF) eqn:E.
  - apply N.eqb_eq in E; subst c. cbn [app].
    rewrite (split_cons LF CR), (split_cons LF LF (crlf t)), (split_cons LF LF t).
    replace (N.eqb CR LF) with false by reflexivity.
    rewrite N.eqb_refl. cbn [cons_first map]. rewrite IH. reflexivity.
  - cbn [app]. rewrite (split_cons LF c (crlf t)), (split_cons LF c t), E.
    destruct (split_nonempty LF (crlf t)) as [p' [ps' Hs']].
    destruct (split_nonempty LF t) as [p [ps Hs]].
    rewrite Hs', Hs in *. cbn [map] in IH. injection IH as Hp Hps.
    cbn [cons_first map]. rewrite !rstrip_cons, Hp, Hps. reflexivity.
Qed.

(** X5 -- Line endings do not matter (both programs): a response whose
    lines end in CR LF gives the same names as the same response with
    plain LF line ends. *)
Theorem normalizer_crlf (raw : str) :
  App.names_of_content (crlf raw) = App.names_of_content raw /\
  ZoomAttendance.names_of_content (crlf raw) =
    ZoomAttendance.names_of_content raw.
Proof.
  rewrite names_of_content_same, !names_of_content_spec.
  unfold Spec.normalize, Spec.trimmed_lines.
  rewrite !strip_as_lstrip_rstrip, crlf_lines. split; reflexivity.
Qed.

End NormalizerMore.

(* ================================================================== *)
(** * The region selector *)
(* ================================================================== *)

Section Selector.
Import ScreenSelector.
Local Open Scope Z_scope.

(** X6 -- Releasing the mouse after a press.  The selection is closed
    with the bounding box of the press point and the release point when
    the two are at least 10 pixels apart in both directions, and is
    cancelled otherwise; the result is the same whichever of the two
    corners the drag started from.  A release without a press is
    ignored. *)
Theorem on_release_bounding_box (sx sy ex ey : Z) (r r' : option region) :
  on_release {| start := Some (sx, sy); rect := r |} (mkEvent ex ey) =
    (if (10 <=? Z.abs (ex - sx)) && (10 <=? Z.abs (ey - sy))
     then Closed (Some (Z.min sx ex, Z.min sy ey, Z.max sx ex, Z.max sy ey))
     else Closed None) /\
  on_release {| start := Some (sx, sy); rect := r |} (mkEvent ex ey) =
    on_release {| start := Some (ex, ey); rect := r' |} (mkEvent sx sy) /\
  on_release {| start := None; rect := r |} (mkEvent ex ey) =
    Open {| start := None; rect := r |}.
Proof.
  unfold on_release, cancel. cbn [start x y].
  rewrite (Z.min_comm ex sx), (Z.min_comm ey sy),
          (Z.max_comm ex sx), (Z.max_comm ey sy).
  split; [|split; reflexivity].
  destruct (Z.ltb_spec (Z.max sx ex - Z.min sx ex) 10),
           (Z.ltb_spec (Z.max sy ey - Z.min sy ey) 10),
           (Z.leb_spec 10 (Z.abs (ex - sx))),
           (Z.leb_spec 10 (Z.abs (ey - sy)));
    cbn [orb andb]; try reflexivity; exfalso; lia.
Qed.

Lemma run_closed_region (events : list tk_event) : forall s reg,
  run s events = Closed (Some reg) ->
  exists px py q,
    (start s = Some (px, py) \/ In (Button_1 (mkEvent px py)) events) /\
    In (ButtonRelease_1 q) events /\
    reg = (Z.min px (x q), Z.min py (y q), Z.max px (x q), Z.max py (y q)) /\
    Z.min px (x q) + 10 <= Z.max px (x q) /\
    Z.min py (y q) + 10 <= Z.max py (y q).
Proof.
  induction events as [|ev events IH]; intros s reg Hrun; [discriminate|].
  cbn [run] in Hrun. destruct ev as [e|e|e|]; cbn [dispatch] in Hrun.
  - unfold on_press in Hrun.
    destruct (IH _ _ Hrun) as [px [py [q [Hs [Hq Hr]]]]].
    exists px, py, q. split; [|split; [right; exact Hq | exact Hr]].
    right. destruct Hs as [Hs|Hs]; [|right; exact Hs].
    cbn [start] in Hs. injection Hs as <- <-. left. destruct e; reflexivity.
  - assert (Hd : exists s', on_drag s e = Open s' /\ start s' = start s).
    { unfold on_drag. destruct (rect s); [|eexists; split; reflexivity].
      destruct (start s) as [[? ?]|] eqn:E; eexists;
        (split; [reflexivity | first [reflexivity | exact E]]). }
    destruct Hd as [s' [Hd Hstart]]. rewrite Hd in Hrun.
    destruct (IH _ _ Hrun) as [px [py [q [Hs [Hq Hr]]]]].
    exists px, py, q. rewrite Hstart in Hs.
    split; [|split; [right; exact Hq | exact Hr]].
    destruct Hs; [left | right; right]; assumption.
  - unfold on_release, cancel in Hrun.
    destruct (start s) as [[sx sy]|] eqn:Hstart.
    + destruct ((Z.max sx (x e) - Z.min sx (x e) <? 10)
                || (Z.max sy (y e) - Z.min sy (y e) <? 10)) eqn:Hsmall;
        [discriminate|].
      injection Hrun as <-. apply orb_false_iff in Hsmall as [Hx Hy].
      apply Z.ltb_ge in Hx, Hy.
      exists sx, sy, e. split; [left; reflexivity|].
      split; [left; reflexivity|]. split; [reflexivity|]. lia.
    + destruct (IH _ _ Hrun) as [px [py [q [Hs [Hq Hr]]]]].
      exists px, py, q. split; [|split; [right; exact Hq | exact Hr]].
      destruct Hs as [Hs|Hs]; [congruence | right; right; exact Hs].
  - discriminate.
Qed.

(** X7 -- Whatever the user does on the overlay, a region handed to the
    callback is the bounding box of a press point and a release point of
    the gesture, with its corners in order and at least 10 pixels wide
    and 10 pixels high. *)
Theorem selector_region (events : list tk_event) (x1 y1 x2 y2 : Z) :
  run __init__ events = Closed (Some (x1, y1, x2, y2)) ->
  x1 + 10 <= x2 /\ y1 + 10 <= y2 /\
  exists p q,
    In (Button_1 p) events /\ In (ButtonRelease_1 q) events /\
    x1 = Z.min (x p) (x q) /\ y1 = Z.min (y p) (y q) /\
    x2 = Z.max (x p) (x q) /\ y2 = Z.max (y p) (y q).
Proof.
  intros Hrun.
  destruct (run_closed_region _ _ Hrun)
    as [px [py [q [Hs [Hq [Hr [Hw Hh]]]]]]].
  injection Hr as -> -> -> ->.
  destruct Hs as [Hs|Hs]; [discriminate|].
  split; [exact Hw|]. split; [exact Hh|].
  exists (mkEvent px py), q. cbn [x y]. repeat split; assumption.
Qed.

Lemma selector_region_witness :
  100 + 10 <= 300 /\ 50 + 10 <= 100 /\
  exists p q,
    In (Button_1 p)
       [Button_1 (mkEvent 300 100); B1_Motion (mkEvent 200 80);
        ButtonRelease_1 (mkEvent 100 50)] /\
    In (ButtonRelease_1 q)
       [Button_1 (mkEvent 300 100); B1_Motion (mkEvent 200 80);
        ButtonRelease_1 (mkEvent 100 50)] /\
    100 = Z.min (x p) (x q) /\ 50 = Z.min (y p) (y q) /\
    300 = Z.max (x p) (x q) /\ 100 = Z.max (y p) (y q).
Proof.
  apply (selector_region
           [Button_1 (mkEvent 300 100); B1_Motion (mkEvent 200 80);
            ButtonRelease_1 (mkEvent 100 50)]).
  reflexivity.
Defined.

End Selector.

(* ================================================================== *)
(** * The desktop application *)
(* ================================================================== *)

Section Desktop.
Import Py ZoomAttendanceApp.

(** X8 -- The key status label never shows the key.  For a key longer
    than four characters the label is the fixed prefix followed by the
    last four characters of the key, and at least one character of the
    key is left out; for a key of one to four characters the label is a
    fixed text; for an empty or unset key it is the not-set notice. *)
Theorem api_status_text_masks (key : str) :
  (4 < length key ->
     api_status_text (Some key) =
       u "API Key: sk-..." ++ last_chars 4 key /\
     length (last_chars 4 key) = 4 /\
     exists hidden, hidden <> [] /\ key = hidden ++ last_chars 4 key) /\
  (key <> [] -> length key <= 4 ->
     api_status_text (Some key) =
       u "API Key: " ++ [35373; 23450; 28168; 12415]%N) /\
  api_status_text (Some []) = api_status_text None.
Proof.
  split; [|split; [|reflexivity]].
  - intros Hlen. unfold api_status_text, _init_openai_client.
    destruct key as [|c key]; [simpl in Hlen; lia|]. cbn [truthy].
    apply Nat.ltb_lt in Hlen. rewrite Hlen. apply Nat.ltb_lt in Hlen.
    split; [reflexivity|]. unfold last_chars. split.
    + rewrite length_skipn. lia.
    + exists (firstn (length (c :: key) - 4) (c :: key)). split.
      * intros H. apply (f_equal (@length _)) in H.
        rewrite length_firstn in H. cbn [length] in H, Hlen. lia.
      * symmetry. apply firstn_skipn.
  - intros Hne Hlen. unfold api_status_text, _init_openai_client.
    destruct key as [|c key]; [congruence|]. cbn [truthy].
    assert (H : (4 <? length (c :: key)) = false) by (apply Nat.ltb_ge; exact Hlen).
    rewrite H. reflexivity.
Qed.

Lemma do_capture_fields (a : app) (response : completion) (now : str) :
  client (fst (_do_capture a response now)) = client a /\
  attendance_data (fst (_do_capture a response now)) =
    snd (ZoomAttendance._do_capture response now (attendance_data a)) /\
  capture_region (fst (_do_capture a response now)) = capture_region a /\
  recapture_btn (fst (_do_capture a response now)) = recapture_btn a.
Proof.
  unfold _do_capture.
  destruct (ZoomAttendance._do_capture response now (attendance_data a))
    as [[[n k| |e]|e] d]; repeat split.
Qed.

Lemma fold_left_invariant {A B} (f : A -> B -> A) (P : A -> Prop) :
  (forall a b, P a -> P (f a b)) ->
  forall l a, P a -> P (fold_left f l a).
Proof.
  intros Hstep. induction l as [|b l IH]; intros a Ha; [exact Ha|].
  simpl. apply IH, Hstep, Ha.
Qed.

(** X9 -- Invariants of the desktop application.  After any sequence of
    clicks on its buttons: the client is the one set at start-up; the
    recapture button is enabled exactly when a region is remembered; a
    remembered region is at least 10 by 10 pixels; and without a client
    (no key in the environment) the ledger is still empty and no region
    was ever captured. *)
Theorem mainloop_invariants (api_key : option str) (clicks : list click) :
  let a := mainloop api_key clicks in
  client a = _init_openai_client api_key /\
  (recapture_btn a = true <-> capture_region a <> None) /\
  (forall x1 y1 x2 y2, capture_region a = Some (x1, y1, x2, y2) ->
     (x1 + 10 <= x2 /\ y1 + 10 <= y2)%Z) /\
  (client a = false -> attendance_data a = [] /\ capture_region a = None).
Proof.
  unfold mainloop.
  apply (fold_left_invariant handle
    (fun a =>
       client a = _init_openai_client api_key /\
       (recapture_btn a = true <-> capture_region a <> None) /\
       (forall x1 y1 x2 y2, capture_region a = Some (x1, y1, x2, y2) ->
          (x1 + 10 <= x2 /\ y1 + 10 <= y2)%Z) /\
       (client a = false -> attendance_data a = [] /\ capture_region a = None))).
  - intros a c Hinv. destruct c as [g sc t|sc t|fp w|cf]; cbn [handle].
    + unfold select_and_capture.
      destruct (negb (client a)) eqn:Ecl; cbn [fst]; [exact Hinv|].
      apply negb_false_iff in Ecl.
      destruct (ScreenSelector.run ScreenSelector.__init__ g)
        as [s|[[[[x1 y1] x2] y2]|]] eqn:Erun; cbn [fst];
        [exact Hinv | | exact Hinv].
      unfold _on_region_selected.
      match goal with |- context [_do_capture ?a0 ?r0 ?t0] =>
        destruct (do_capture_fields a0 r0 t0) as [H1 [H2 [H3 H4]]] end.
      rewrite H1, H3, H4. cbn [client capture_region recapture_btn].
      destruct Hinv as [Hc _].
      split; [exact Hc|]. split; [split; [discriminate | reflexivity]|].
      split; [|rewrite Ecl; discriminate].
      intros a1 b1 a2 b2 [= <- <- <- <-].
      apply selector_region in Erun. tauto.
    + unfold recapture.
      destruct (negb (client a)) eqn:Ecl; cbn [fst]; [exact Hinv|].
      apply negb_false_iff in Ecl.
      assert (Hcase : capture_region a = None \/
                      exists r, capture_region a = Some r)
        by (destruct (capture_region a); eauto).
      destruct Hcase as [Er|[r Er]]; rewrite Er; cbn [fst]; [exact Hinv|].
      destruct (do_capture_fields a (sc r) t) as [H1 [H2 [H3 H4]]].
      rewrite H1, H3, H4. destruct Hinv as [Hc [Hb [Hr Hn]]].
      split; [exact Hc|]. split; [exact Hb|]. split; [exact Hr|].
      rewrite Ecl. discriminate.
    + unfold export_csv.
      destruct (ZoomAttendance.export_csv (attendance_data a) fp w);
        cbn [fst]; exact Hinv.
    + unfold clear_data.
      destruct (negb (truthy (attendance_data a))) eqn:Et; [exact Hinv|].
      destruct cf; [|exact Hinv].
      cbn [client capture_region recapture_btn attendance_data].
      destruct Hinv as [Hc [Hb [Hr Hn]]].
      split; [exact Hc|]. split; [exact Hb|]. split; [exact Hr|].
      intros Hcl. destruct (Hn Hcl) as [Hd Hreg]. rewrite Hd in Et.
      discriminate.
  - cbn [__init__ client capture_region recapture_btn attendance_data].
    split; [reflexivity|]. split; [split; [discriminate | congruence]|].
    split; [discriminate|]. intros _. split; reflexivity.
Qed.

Lemma handle_reachable (a : app) (c : click) :
  reachable (attendance_data a) -> reachable (attendance_data (handle a c)).
Proof.
  intros Hr. destruct c as [g sc t|sc t|fp w|cf]; cbn [handle].
  - unfold select_and_capture. destruct (client a); cbn [negb fst]; [|exact Hr].
    destruct (ScreenSelector.run ScreenSelector.__init__ g) as [s|[r|]];
      cbn [fst _on_region_selected attendance_data]; try exact Hr.
    match goal with |- context [_do_capture ?a0 ?r0 ?t0] =>
      destruct (do_capture_fields a0 r0 t0) as [_ [H2 _]] end.
    rewrite H2. apply reach_do_capture. exact Hr.
  - unfold recapture. destruct (client a); cbn [negb fst]; [|exact Hr].
    destruct (capture_region a) as [r|]; cbn [fst]; [|exact Hr].
    destruct (do_capture_fields a (sc r) t) as [_ [H2 _]].
    rewrite H2. apply reach_do_capture. exact Hr.
  - unfold export_csv.
    destruct (ZoomAttendance.export_csv (attendance_data a) fp w);
      cbn [fst attendance_data]; exact Hr.
  - unfold clear_data. destruct (truthy (attendance_data a)); cbn [negb];
      [|exact Hr].
    destruct cf; [|exact Hr]. cbn [attendance_data].
    apply reach_clear_data. exact Hr.
Qed.

Lemma mainloop_reachable (api_key : option str) (clicks : list click) :
  reachable (attendance_data (mainloop api_key clicks)).
Proof.
  unfold mainloop.
  apply (fold_left_invariant handle
           (fun a => reachable (attendance_data a))).
  - intros a c. apply handle_reachable.
  - apply reach_empty.
Qed.

End Desktop.

(* ================================================================== *)
(** * One run of the web script, and sessions of runs *)
(* ================================================================== *)

Section WebMain.
Import Py AppMain.

Lemma analyze_ok (response : completion) (now : str) (d : dict) :
  exists m, App.analyze response now d =
            (Ok m, snd (App.analyze response now d)).
Proof.
  rewrite analyze_run. destruct response as [e|content]; [eauto|].
  cbv zeta. destruct (App.names_of_content content); eauto.
Qed.

(** The page and the dict after one interaction, by cases. *)
Lemma main_run (i : inputs) (d : dict) :
  let ran :=
    match uploaded_file i with
    | Some _ => analyze_clicked i
    | None => false
    end in
  let d1 := if ran then snd (App.analyze (response i) (now i) d) else d in
  let notice :=
    if ran
    then match fst (App.analyze (response i) (now i) d) with
         | Ok m => Some m
         | Raise _ => None
         end
    else None in
  main i d =
  if negb (truthy (api_key i)) then (Ok NeedKey, d)
  else if truthy d1 then
    if clear_clicked i then (Ok (Shown None 0 App.NoData None), [])
    else (Ok (Shown notice (length d1) (App.render d1)
                (Some (App.csv_data d1))), d1)
  else (Ok (Shown notice 0 App.NoData None), d1).
Proof.
  cbv zeta. unfold main, script, bind, ret, session_data, App.clear, clear_dict.
  destruct (truthy (api_key i)) eqn:Ek; cbn [negb]; [|reflexivity].
  cbn [rerun_inputs api_key uploaded_file analyze_clicked clear_clicked
       response now].
  rewrite Ek. cbn [negb].
  assert (Hran : forall ran : bool,
    (if ran then true else false) = ran) by (intros []; reflexivity).
  destruct (uploaded_file i) as [f|]; [destruct (analyze_clicked i)|].
  - destruct (analyze_ok (response i) (now i) d) as [m Hm]. rewrite Hm.
    cbn [fst snd].
    destruct (snd (App.analyze (response i) (now i) d)) as [|item d1] eqn:E.
    + reflexivity.
    + cbn [truthy snd fst]. destruct (clear_clicked i); reflexivity.
  - destruct d as [|item d1]; [reflexivity|].
    cbn [truthy snd fst]. destruct (clear_clicked i); reflexivity.
  - destruct d as [|item d1]; [reflexivity|].
    cbn [truthy snd fst]. destruct (clear_clicked i); reflexivity.
Qed.

(** X10 -- What a run cannot do.  Without an API key the page asks for
    the key and nothing else happens, whatever is uploaded or pressed;
    and the ledger is changed by a run only if the analyse button was
    pressed with a file uploaded or the clear button was pressed. *)
Theorem main_gates (i : inputs) (d : dict) :
  (truthy (api_key i) = false -> main i d = (Ok NeedKey, d)) /\
  (clear_clicked i = false -> uploaded_file i = None ->
     snd (main i d) = d) /\
  (clear_clicked i = false -> analyze_clicked i = false ->
     snd (main i d) = d).
Proof.
  rewrite main_run. cbv zeta. split; [|split].
  - intros ->. reflexivity.
  - intros -> ->. destruct (truthy (api_key i)); cbn [negb]; [|reflexivity].
    destruct (truthy d); reflexivity.
  - intros -> ->. destruct (truthy (api_key i)); cbn [negb]; [|reflexivity].
    destruct (uploaded_file i); destruct (truthy d); reflexivity.
Qed.

Lemma main_clear (i : inputs) (d : dict) :
  truthy (api_key i) = true -> clear_clicked i = true ->
  analyze_clicked i = false ->
  snd (main i d) = [].
Proof.
  intros Hk Hc Ha. rewrite main_run. cbv zeta. rewrite Hk, Hc, Ha.
  cbn [negb]. destruct (uploaded_file i); destruct d; reflexivity.
Qed.

(** X13 -- Clearing forgets the session.  In a session of runs of the
    web page, a run in which the clear button is pressed (with a key
    set) makes everything before it irrelevant: the ledger at the end of
    the session is the one the later runs alone would have built. *)
Theorem session_clear_forgets (before after : list inputs) (i : inputs) :
  truthy (api_key i) = true -> clear_clicked i = true ->
  analyze_clicked i = false ->
  session (before ++ i :: after) = session after.
Proof.
  intros Hk Hc Ha. unfold session. rewrite fold_left_app. cbn [fold_left].
  rewrite main_clear by assumption. reflexivity.
Qed.

Lemma session_clear_forgets_witness :
  let run1 := {| api_key := u "sk-test"; uploaded_file := Some [137]%N;
                 analyze_clicked := true; response := Content (u "Alice");
                 now := u "10:00"; clear_clicked := false |} in
  let clear := {| api_key := u "sk-test"; uploaded_file := Some [137]%N;
                  analyze_clicked := false; response := Content (u "Alice");
                  now := u "10:01"; clear_clicked := true |} in
  let run2 := {| api_key := u "sk-test"; uploaded_file := Some [137]%N;
                 analyze_clicked := true; response := Content (u "Bob");
                 now := u "10:02"; clear_clicked := false |} in
  session ([run1] ++ clear :: [run2]) = session [run2].
Proof.
  intros run1 clear run2.
  apply (session_clear_forgets [run1] [run2] clear); reflexivity.
Defined.

Lemma main_reachable (i : inputs) (d : dict) :
  reachable d -> reachable (snd (main i d)).
Proof.
  intros Hr. rewrite main_run. cbv zeta.
  destruct (truthy (api_key i)); cbn [negb]; [|exact Hr].
  assert (H1 : reachable
            (if match uploaded_file i with
                | Some _ => analyze_clicked i
                | None => false
                end
             then snd (App.analyze (response i) (now i) d) else d)).
  { destruct (match uploaded_file i with
              | Some _ => analyze_clicked i
              | None => false
              end); [apply reach_analyze|]; exact Hr. }
  match goal with |- context [truthy ?d1] => destruct (truthy d1) end;
    [|exact H1].
  destruct (clear_clicked i); [apply reach_empty | exact H1].
Qed.

Lemma session_reachable (runs : list inputs) : reachable (session runs).
Proof.
  unfold session.
  apply (fold_left_invariant (fun d i => snd (main i d)) reachable).
  - intros d i. apply main_reachable.
  - apply reach_empty.
Qed.

(** Every entry of a reachable ledger, as the sorted items list it. *)
Lemma reachable_sorted_items (d : dict) name times :
  reachable d -> In (name, times) (sorted (dict_items d)) ->
  exists first rest,
    times = first :: rest /\ dict_get d name = Some (first :: rest).
Proof.
  intros Hr Hin. apply reachable_sound in Hr as [Hwf Hne].
  apply (Permutation_in _ (Permutation_sym (sorted_perm d))) in Hin.
  rewrite Forall_forall in Hne. pose proof (Hne _ Hin) as Hnonempty.
  cbn [snd] in Hnonempty. destruct times as [|first rest]; [congruence|].
  exists first, rest. split; [reflexivity|].
  apply dict_In_get; assumption.
Qed.

(** X14 -- No row without a detection.  In every session of either
    program (runs of the web page, clicks in the desktop window), every
    row of the table, of the tree view and of the export shows a count
    of at least 1 and, as first recorded time, the first record the
    ledger holds for the name: the empty-string fallback of the row
    builders is never taken. *)
Theorem rows_have_records :
  (forall runs r, In r (App.table_rows (session runs)) ->
     1 <= App.row_count r /\
     exists rest,
       dict_get (session runs) (App.row_name r) =
         Some (App.row_first r :: rest) /\
       App.row_count r = S (length rest)) /\
  (forall api_key clicks name first count,
     let data := ZoomAttendanceApp.attendance_data
                   (ZoomAttendanceApp.mainloop api_key clicks) in
     In (name, first, count) (ZoomAttendance._update_list data) ->
     1 <= count /\
     exists rest,
       dict_get data name = Some (first :: rest) /\ count = S (length rest)) /\
  (forall api_key clicks row,
     let data := ZoomAttendanceApp.attendance_data
                   (ZoomAttendanceApp.mainloop api_key clicks) in
     In row (ZoomAttendance.export_rows data) ->
     exists name first rest,
       dict_get data name = Some (first :: rest) /\
       row = [VStr name; VStr first; VInt (S (length rest));
              VStr (join (u "; ") (first :: rest))]).
Proof.
  split; [|split].
  - intros runs r Hin. unfold App.table_rows in Hin.
    apply in_map_iff in Hin as [[name times] [<- Hin]].
    destruct (reachable_sorted_items _ _ (session_reachable runs) Hin)
      as [first [rest [-> Hget]]].
    cbn [App.row_count App.row_name App.row_first fst snd length
         App.first_or_empty].
    split; [lia|]. exists rest. split; [exact Hget | reflexivity].
  - intros api_key clicks name first count data Hin.
    unfold ZoomAttendance._update_list in Hin.
    apply in_map_iff in Hin as [[name' times] [Heq Hin]].
    destruct (reachable_sorted_items _ _
                (mainloop_reachable api_key clicks) Hin)
      as [first' [rest [-> Hget]]].
    cbn [fst snd length] in Heq. injection Heq as <- <- <-.
    split; [lia|]. exists rest. split; [exact Hget | reflexivity].
  - intros api_key clicks row data Hin.
    unfold ZoomAttendance.export_rows in Hin.
    apply in_map_iff in Hin as [[name times] [<- Hin]].
    destruct (reachable_sorted_items _ _
                (mainloop_reachable api_key clicks) Hin)
      as [first [rest [-> Hget]]].
    exists name, first, rest. split; [exact Hget | reflexivity].
Qed.

End WebMain.

(* ================================================================== *)
(** * The file [export_csv] writes *)
(* ================================================================== *)

Section FileBytes.
Import Py Codec.
Local Open Scope N_scope.

Lemma continuation_low (m : N) : m < 64 -> continuation (128 + m) = true.
Proof.
  intros H. unfold continuation. apply andb_true_iff. split.
  - apply N.leb_le. lia.
  - apply N.ltb_lt. lia.
Qed.

Lemma sextets (c : N) :
  c = 64 * (c / 64) + c mod 64 /\ c mod 64 < 64 /\
  c / 64 = 64 * (c / 4096) + (c / 64) mod 64 /\ (c / 64) mod 64 < 64 /\
  c / 4096 = 64 * (c / 262144) + (c / 4096) mod 64 /\
  (c / 4096) mod 64 < 64.
Proof.
  assert (H4096 : c / 4096 = c / 64 / 64)
    by (rewrite N.Div0.div_div; reflexivity).
  assert (H262144 : c / 262144 = c / 4096 / 64)
    by (rewrite N.Div0.div_div; reflexivity).
  rewrite H262144, H4096.
  repeat split;
    first [apply N.div_mod; discriminate | apply N.mod_lt; discriminate].
Qed.

Ltac decide_test :=
  match goal with
  | |- context [(?a <? ?b)] =>
      first [ replace (a <? b) with true
                by (symmetry; apply N.ltb_lt; lia)
            | replace (a <? b) with false
                by (symmetry; apply N.ltb_ge; lia) ]
  | |- context [(?a <=? ?b)] =>
      replace (a <=? b) with true by (symmetry; apply N.leb_le; lia)
  end.

Lemma utf_8_decode_1 b1 rest :
  b1 < 128 ->
  utf_8_decode (b1 :: rest) = option_map (cons b1) (utf_8_decode rest).
Proof.
  intros H. apply N.ltb_lt in H. cbn [utf_8_decode]. rewrite H. reflexivity.
Qed.

Lemma utf_8_decode_2 q0 m0 rest :
  2 <= q0 -> q0 < 32 -> m0 < 64 ->
  utf_8_decode ((192 + q0) :: (128 + m0) :: rest) =
  option_map (cons (64 * q0 + m0)) (utf_8_decode rest).
Proof.
  intros Hq Hq' Hm.
  remember (192 + q0) as b1 eqn:E1. remember (128 + m0) as b2 eqn:E2.
  cbn [utf_8_decode]. cbv zeta.
  replace ((b1 - 192) * 64 + (b2 - 128)) with (64 * q0 + m0) by lia.
  replace (continuation b2) with true
    by (symmetry; subst b2; apply continuation_low; exact Hm).
  repeat decide_test. reflexivity.
Qed.

Lemma utf_8_decode_3 q1 m1 m0 rest :
  q1 < 16 -> m1 < 64 -> m0 < 64 ->
  2048 <= 4096 * q1 + 64 * m1 + m0 ->
  scalar (4096 * q1 + 64 * m1 + m0) = true ->
  utf_8_decode ((224 + q1) :: (128 + m1) :: (128 + m0) :: rest) =
  option_map (cons (4096 * q1 + 64 * m1 + m0)) (utf_8_decode rest).
Proof.
  intros Hq Hm1 Hm0 Hlow Hs.
  remember (224 + q1) as b1 eqn:E1. remember (128 + m1) as b2 eqn:E2.
  remember (128 + m0) as b3 eqn:E3.
  cbn [utf_8_decode]. cbv zeta.
  replace ((b1 - 224) * 4096 + (b2 - 128) * 64 + (b3 - 128))
    with (4096 * q1 + 64 * m1 + m0) by lia.
  replace (continuation b2) with true
    by (symmetry; subst b2; apply continuation_low; exact Hm1).
  replace (continuation b3) with true
    by (symmetry; subst b3; apply continuation_low; exact Hm0).
  rewrite Hs. repeat decide_test. reflexivity.
Qed.

Lemma utf_8_decode_4 q2 m2 m1 m0 rest :
  q2 < 8 -> m2 < 64 -> m1 < 64 -> m0 < 64 ->
  65536 <= 262144 * q2 + 4096 * m2 + 64 * m1 + m0 ->
  scalar (262144 * q2 + 4096 * m2 + 64 * m1 + m0) = true ->
  utf_8_decode
    ((240 + q2) :: (128 + m2) :: (128 + m1) :: (128 + m0) :: rest) =
  option_map (cons (262144 * q2 + 4096 * m2 + 64 * m1 + m0))
    (utf_8_decode rest).
Proof.
  intros Hq Hm2 Hm1 Hm0 Hlow Hs.
  remember (240 + q2) as b1 eqn:E1. remember (128 + m2) as b2 eqn:E2.
  remember (128 + m1) as b3 eqn:E3. remember (128 + m0) as b4 eqn:E4.
  cbn [utf_8_decode]. cbv zeta.
  replace ((b1 - 240) * 262144 + (b2 - 128) * 4096 + (b3 - 128) * 64
           + (b4 - 128))
    with (262144 * q2 + 4096 * m2 + 64 * m1 + m0) by lia.
  replace (continuation b2) with true
    by (symmetry; subst b2; apply continuation_low; exact Hm2).
  replace (continuation b3) with true
    by (symmetry; subst b3; apply continuation_low; exact Hm1).
  replace (continuation b4) with true
    by (symmetry; subst b4; apply continuation_low; exact Hm0).
  rewrite Hs. repeat decide_test. reflexivity.
Qed.

Lemma scalar_bound (c : N) : scalar c = true -> c < 1114112.
Proof.
  unfold scalar. intros Hs. apply orb_true_iff in Hs as [Hs|Hs].
  - apply N.ltb_lt in Hs. lia.
  - apply andb_true_iff in Hs as [_ Hs]. apply N.ltb_lt in Hs. exact Hs.
Qed.

(** One encoded code point, followed by anything, decodes to that code
    point followed by the decoding of the rest. *)
Lemma decode_encode_char (c : char) (bytes rest : list N) :
  encode_char c = Some bytes ->
  utf_8_decode (bytes ++ rest) = option_map (cons c) (utf_8_decode rest).
Proof.
  unfold encode_char.
  destruct (sextets c) as [H0 [M0 [H1 [M1 [H2 M2]]]]].
  set (m0 := c mod 64) in *. set (m1 := (c / 64) mod 64) in *.
  set (m2 := (c / 4096) mod 64) in *. set (q0 := c / 64) in *.
  set (q1 := c / 4096) in *. set (q2 := c / 262144) in *.
  clearbody m0 m1 m2 q0 q1 q2.
  destruct (N.ltb_spec c 128) as [L1|L1].
  { intros H. replace bytes with [c] by congruence.
    apply utf_8_decode_1. exact L1. }
  destruct (N.ltb_spec c 2048) as [L2|L2].
  { intros H.
    replace bytes with [192 + q0; 128 + m0] by congruence.
    change (utf_8_decode ((192 + q0) :: (128 + m0) :: rest) =
            option_map (cons c) (utf_8_decode rest)).
    rewrite utf_8_decode_2 by lia. rewrite <- H0. reflexivity. }
  destruct (scalar c) eqn:Hs; [|discriminate].
  pose proof (scalar_bound c Hs) as L4.
  assert (E3 : c = 4096 * q1 + 64 * m1 + m0) by lia.
  destruct (N.ltb_spec c 65536) as [L3|L3].
  { intros H.
    replace bytes with [224 + q1; 128 + m1; 128 + m0]
      by (unfold negb in H; congruence).
    change (utf_8_decode ((224 + q1) :: (128 + m1) :: (128 + m0) :: rest) =
            option_map (cons c) (utf_8_decode rest)).
    rewrite utf_8_decode_3; rewrite <- ?E3; try reflexivity; try lia.
    exact Hs. }
  assert (E4 : c = 262144 * q2 + 4096 * m2 + 64 * m1 + m0) by lia.
  intros H.
  replace bytes with [240 + q2; 128 + m2; 128 + m1; 128 + m0]
    by (unfold negb in H; congruence).
  change (utf_8_decode ((240 + q2) :: (128 + m2) :: (128 + m1)
                        :: (128 + m0) :: rest) =
          option_map (cons c) (utf_8_decode rest)).
  rewrite utf_8_decode_4; rewrite <- ?E4; try reflexivity; try lia.
  exact Hs.
Qed.

Lemma encode_char_scalar (c : char) :
  scalar c = true -> exists bytes, encode_char c = Some bytes.
Proof.
  intros Hs. unfold encode_char. rewrite Hs. cbn [negb].
  destruct (c <? 128); [eauto|]. destruct (c <? 2048); [eauto|].
  destruct (c <? 65536); eauto.
Qed.

Lemma utf_8_round_trip (text : str) :
  encodable text ->
  exists bytes, utf_8_encode text = Some bytes /\
                utf_8_decode bytes = Some text.
Proof.
  induction 1 as [|c text Hc Ht [more [Hm Hd]]].
  - exists []. split; reflexivity.
  - destruct (encode_char_scalar c Hc) as [bytes Hb].
    exists (bytes ++ more). cbn [utf_8_encode]. rewrite Hb, Hm.
    split; [reflexivity|].
    erewrite decode_encode_char by exact Hb. rewrite Hd. reflexivity.
Qed.

Lemma utf_8_encode_encodable (text : str) bytes :
  utf_8_encode text = Some bytes -> encodable text.
Proof.
  revert bytes. induction text as [|c text IH]; intros bytes H;
    [constructor|].
  cbn [utf_8_encode] in H.
  destruct (encode_char c) as [b|] eqn:Ec; [|discriminate].
  destruct (utf_8_encode text) as [more|] eqn:Em; [|discriminate].
  constructor; [|apply (IH more); reflexivity].
  unfold encode_char in Ec. unfold scalar.
  destruct (N.ltb_spec c 128) as [L1|L1].
  { apply orb_true_iff. left. apply N.ltb_lt. lia. }
  destruct (N.ltb_spec c 2048) as [L2|L2].
  { apply orb_true_iff. left. apply N.ltb_lt. lia. }
  fold (scalar c). destruct (scalar c); [reflexivity | discriminate].
Qed.

(** ** Texts that can be encoded *)

Lemma encodable_app (a b : str) :
  encodable a -> encodable b -> encodable (a ++ b).
Proof. unfold encodable. intros Ha Hb. apply Forall_app. split; assumption. Qed.

Lemma encodable_join (sep : str) (parts : list str) :
  encodable sep -> Forall encodable parts -> encodable (join sep parts).
Proof.
  intros Hsep. induction 1 as [|p parts Hp Hparts IH]; [constructor|].
  destruct parts as [|q parts]; [exact Hp|].
  rewrite join_cons2. repeat apply encodable_app; assumption.
Qed.

Lemma encodable_double_quotes (f : str) :
  encodable f -> encodable (double_quotes f).
Proof.
  induction 1 as [|c f Hc Hf IH]; [constructor|].
  unfold double_quotes. cbn [flat_map]. fold (double_quotes f).
  apply encodable_app; [|exact IH].
  destruct (c =? quotechar); repeat constructor. exact Hc.
Qed.

Lemma encodable_write_field (lt f : str) :
  encodable f -> encodable (write_field lt f).
Proof.
  intros Hf. unfold write_field. destruct (needs_quotes lt f); [|exact Hf].
  constructor; [reflexivity|].
  apply encodable_app; [apply encodable_double_quotes; exact Hf|].
  repeat constructor.
Qed.

Lemma encodable_digits (d : Decimal.uint) : encodable (digits d).
Proof. induction d; simpl; constructor; auto. Qed.

Lemma encodable_to_str (v : value) :
  match v with VStr f => encodable f | VInt _ => True end ->
  encodable (to_str v).
Proof. destruct v; [auto | intros _; apply encodable_digits]. Qed.

Lemma encodable_writerow (row : list value) :
  Forall (fun v => match v with VStr f => encodable f | VInt _ => True end)
    row ->
  encodable (writerow excel row).
Proof.
  intros Hrow. unfold writerow. apply encodable_app; [|repeat constructor].
  assert (Hfields : Forall encodable (map to_str row)).
  { induction Hrow; constructor; [apply encodable_to_str|]; assumption. }
  destruct (map to_str row) as [|f rest] eqn:E; [constructor|].
  assert (Hj : encodable (join [delimiter]
                            (map (write_field excel) (f :: rest)))).
  { apply encodable_join; [repeat constructor|].
    rewrite Forall_forall in *. intros x Hx.
    apply in_map_iff in Hx as [y [<- Hy]].
    apply encodable_write_field, Hfields, Hy. }
  destruct f; [destruct rest|]; [repeat constructor | exact Hj | exact Hj].
Qed.

Lemma encodable_forallb (text : str) :
  encodable text <-> forallb scalar text = true.
Proof.
  unfold encodable. rewrite Forall_forall, forallb_forall. reflexivity.
Qed.

(** ** Every character of a field is in the text of its row *)

Lemma write_field_In (lt f : str) c : In c f -> In c (write_field lt f).
Proof.
  intros Hc. unfold write_field. destruct (needs_quotes lt f); [|exact Hc].
  right. apply in_or_app. left. unfold double_quotes.
  apply in_flat_map. exists c. split; [exact Hc|].
  destruct (c =? quotechar) eqn:E; [|left; reflexivity].
  apply N.eqb_eq in E. left. congruence.
Qed.

Lemma join_In (sep : str) (parts : list str) p c :
  In p parts -> In c p -> In c (join sep parts).
Proof.
  intros Hp Hc. induction parts as [|q parts IH]; [destruct Hp|].
  destruct parts as [|r parts].
  - destruct Hp as [->|[]]. exact Hc.
  - rewrite join_cons2. apply in_or_app. destruct Hp as [->|Hp].
    + left; exact Hc.
    + right. apply in_or_app. right. apply IH. exact Hp.
Qed.

Lemma writerow_In (lt : str) (row : list value) f c :
  In f (map to_str row) -> In c f -> In c (writerow lt row).
Proof.
  intros Hf Hc. unfold writerow. apply in_or_app. left.
  assert (Hj : In c (join [delimiter] (map (write_field lt) (map to_str row)))).
  { apply (join_In [delimiter] _ (write_field lt f));
      [apply in_map; exact Hf | apply write_field_In; exact Hc]. }
  destruct (map to_str row) as [|f0 rest]; [destruct Hf|].
  destruct f0 as [|c0 f0]; [destruct rest as [|g rest]|]; try exact Hj.
  destruct Hf as [<-|[]]. destruct Hc.
Qed.

(** ** Which rows can be written *)

(** The row of an entry can be encoded exactly when its name and its
    times can. *)
Lemma row_encodable_item (name : str) (times : list str) :
  row_encodable [VStr name; VStr (App.first_or_empty times);
                 VInt (length times); VStr (join (u "; ") times)] = true <->
  encodable name /\ Forall encodable times.
Proof.
  unfold row_encodable. rewrite <- encodable_forallb. split.
  - intros Hrow. unfold encodable in Hrow. rewrite Forall_forall in Hrow.
    split.
    + apply Forall_forall. intros c Hc. apply Hrow.
      apply (writerow_In excel _ name); [left; reflexivity | exact Hc].
    + apply Forall_forall. intros t Ht. apply Forall_forall. intros c Hc.
      apply Hrow.
      apply (writerow_In excel _ (join (u "; ") times));
        [right; right; right; left; reflexivity|].
      apply (join_In _ _ t); assumption.
  - intros [Hname Htimes]. apply encodable_writerow. repeat constructor.
    + exact Hname.
    + destruct Htimes; [constructor | assumption].
    + apply encodable_join; [repeat constructor | exact Htimes].
Qed.

Lemma rows_encodable_data (data : dict) :
  forallb row_encodable (ZoomAttendance.export_rows data) = true <->
  (forall name times, In (name, times) data ->
     encodable name /\ Forall encodable times).
Proof.
  rewrite forallb_forall. unfold ZoomAttendance.export_rows, dict_items.
  split.
  - intros Hrows name times Hitem.
    apply (Permutation_in _ (sorted_perm data)) in Hitem.
    apply row_encodable_item. apply Hrows.
    apply in_map_iff. exists (name, times). split; [reflexivity | exact Hitem].
  - intros Hdata row Hrow. apply in_map_iff in Hrow as [[name times] [<- Hitem]].
    apply (Permutation_in _ (Permutation_sym (sorted_perm data))) in Hitem.
    cbn [fst snd]. apply row_encodable_item. apply (Hdata _ _ Hitem).
Qed.

(** The rows written are the rows up to the first one that cannot be
    encoded. *)
Lemma encodable_prefix_split (rows : list (list value)) :
  exists later,
    rows = encodable_prefix rows ++ later /\
    match later with
    | [] => forallb row_encodable rows = true
    | row :: _ => row_encodable row = false /\
                  forallb row_encodable rows = false
    end.
Proof.
  induction rows as [|row rows [later [Hsplit Hlater]]].
  - exists []. split; reflexivity.
  - cbn [encodable_prefix forallb]. destruct (row_encodable row) eqn:Er.
    + exists later. cbn [app andb]. split; [congruence | exact Hlater].
    + exists (row :: rows). split; [reflexivity|]. split; [exact Er | reflexivity].
Qed.

(** ** Writing row by row *)

Lemma utf_8_encode_app (a b : str) ba bb :
  utf_8_encode a = Some ba -> utf_8_encode b = Some bb ->
  utf_8_encode (a ++ b) = Some (ba ++ bb).
Proof.
  revert ba. induction a as [|c a IH]; intros ba Ha Hb.
  - cbn [utf_8_encode] in Ha. injection Ha as <-. exact Hb.
  - cbn [app utf_8_encode] in *.
    destruct (encode_char c) as [bc|]; [|discriminate].
    destruct (utf_8_encode a) as [ba'|] eqn:Ea; [|discriminate].
    injection Ha as <-. rewrite (IH ba' eq_refl Hb), app_assoc. reflexivity.
Qed.

Lemma write_encodable (f : TextFile.t) (text : str) :
  forallb scalar text = true ->
  exists bytes,
    utf_8_encode text = Some bytes /\
    TextFile.write f text =
      Some {| TextFile.first := false;
              TextFile.content :=
                TextFile.content f ++
                (if TextFile.first f then BOM_UTF8 else []) ++ bytes |}.
Proof.
  intros He. apply encodable_forallb in He.
  destruct (utf_8_round_trip He) as [bytes [Hb _]].
  exists bytes. unfold TextFile.write. rewrite Hb. split; reflexivity.
Qed.

Lemma write_unencodable (f : TextFile.t) (text : str) :
  forallb scalar text = false -> TextFile.write f text = None.
Proof.
  intros He. unfold TextFile.write.
  destruct (utf_8_encode text) as [bytes|] eqn:E; [|reflexivity].
  apply utf_8_encode_encodable, encodable_forallb in E. congruence.
Qed.

(** The file after the loop holds the bytes of the rows written, after
    the byte order mark if the file was new and a row was written; the
    loop ends well exactly when every row can be encoded. *)
Lemma writerows_spec (rows : list (list value)) : forall f,
  exists bytes,
    utf_8_encode (concat (map (writerow excel) (encodable_prefix rows))) =
      Some bytes /\
    TextFile.content (fst (ZoomAttendance.writerows f rows)) =
      TextFile.content f ++
      (if TextFile.first f && truthy (encodable_prefix rows)
       then BOM_UTF8 else []) ++ bytes /\
    snd (ZoomAttendance.writerows f rows) = forallb row_encodable rows.
Proof.
  induction rows as [|row rows IH]; intros f.
  - exists []. cbn [encodable_prefix map concat ZoomAttendance.writerows
                    fst snd forallb truthy].
    rewrite andb_false_r. cbn [app]. rewrite app_nil_r. repeat split.
  - cbn [ZoomAttendance.writerows encodable_prefix forallb].
    destruct (row_encodable row) eqn:Er.
    + destruct (write_encodable f _ Er) as [b [Hb Hw]]. rewrite Hw.
      match goal with |- context [ZoomAttendance.writerows ?f' rows] =>
        destruct (IH f') as [bytes [Hbytes [Hc Hs]]] end.
      exists (b ++ bytes). cbn [map concat truthy andb].
      split; [apply utf_8_encode_app; assumption|].
      rewrite Hc, Hs. cbn [TextFile.first TextFile.content andb app].
      rewrite andb_true_r. split; [|reflexivity].
      rewrite <- !app_assoc. reflexivity.
    + rewrite write_unencodable by exact Er.
      exists []. cbn [map concat fst snd truthy andb].
      rewrite andb_false_r. cbn [app]. rewrite app_nil_r. repeat split.
Qed.

(** What [export_csv] does once a path is chosen and the file is opened. *)
Lemma export_csv_opened (data : dict) (path : str) :
  data <> [] -> path <> [] ->
  exists bytes,
    utf_8_encode
      (concat (map (writerow excel)
                 (ZoomAttendance.header ::
                  encodable_prefix (ZoomAttendance.export_rows data)))) =
      Some bytes /\
    ZoomAttendance.export_csv data (Some path) true =
      if forallb row_encodable (ZoomAttendance.export_rows data)
      then ZoomAttendance.Saved path (BOM_UTF8 ++ bytes)
      else ZoomAttendance.ExportError path (Some (BOM_UTF8 ++ bytes)).
Proof.
  intros Hd Hp. unfold ZoomAttendance.export_csv.
  destruct data as [|item data]; [congruence|].
  destruct path as [|c path]; [congruence|]. cbn [truthy negb].
  set (rows := ZoomAttendance.export_rows (item :: data)).
  destruct (writerows_spec (ZoomAttendance.header :: rows) TextFile.open_w)
    as [bytes [Hbytes [Hc Hs]]].
  assert (Hh : row_encodable ZoomAttendance.header = true)
    by (vm_compute; reflexivity).
  cbn [encodable_prefix forallb] in Hbytes, Hc, Hs. rewrite Hh in *.
  cbn [truthy andb TextFile.open_w TextFile.first TextFile.content app]
    in Hc, Hs.
  exists bytes. split; [exact Hbytes|].
  destruct (ZoomAttendance.writerows TextFile.open_w
              (ZoomAttendance.header :: rows)) as [f ok].
  cbn [fst snd] in Hc, Hs. rewrite <- Hs, Hc. destruct ok; reflexivity.
Qed.

(** The file an opened export leaves, and how the handler ends. *)
Lemma export_csv_written (data : dict) (path : str) :
  data <> [] -> path <> [] ->
  let rows := ZoomAttendance.export_rows data in
  let written := ZoomAttendance.header :: encodable_prefix rows in
  exists bytes later,
    utf_8_encode (concat (map (writerow excel) written)) = Some bytes /\
    utf_8_sig_decode (BOM_UTF8 ++ bytes) =
      Some (concat (map (writerow excel) written)) /\
    rows = encodable_prefix rows ++ later /\
    match later with
    | [] =>
        forallb row_encodable rows = true /\
        ZoomAttendance.export_csv data (Some path) true =
          ZoomAttendance.Saved path (BOM_UTF8 ++ bytes)
    | row :: _ =>
        row_encodable row = false /\
        forallb row_encodable rows = false /\
        ZoomAttendance.export_csv data (Some path) true =
          ZoomAttendance.ExportError path (Some (BOM_UTF8 ++ bytes))
    end.
Proof.
  intros Hd Hp rows written.
  destruct (export_csv_opened Hd Hp) as [bytes [Hbytes Hout]].
  destruct (encodable_prefix_split rows) as [later [Hsplit Hlater]].
  exists bytes, later. fold rows in Hbytes, Hout. fold written in Hbytes.
  split; [exact Hbytes|]. split; [|split; [exact Hsplit|]].
  - pose proof (utf_8_encode_encodable _ Hbytes) as He.
    destruct (utf_8_round_trip He) as [bytes' [Hb' Hdec]].
    assert (bytes' = bytes) by congruence. subst bytes'.
    unfold utf_8_sig_decode, BOM_UTF8. cbn [app]. exact Hdec.
  - destruct later as [|row later].
    + rewrite Hlater in Hout. split; [exact Hlater | exact Hout].
    + destruct Hlater as [Hrow Hall]. rewrite Hall in Hout.
      split; [exact Hrow | split; [exact Hall | exact Hout]].
Qed.

(** X15 -- What [export_csv] leaves on disk.  With a non-empty ledger
    and a path chosen in the dialog, a file that can be opened receives
    the byte order mark, the header and the rows of the ledger in sorted
    order up to the first row that holds a code point that cannot be
    encoded (a lone surrogate): when there is no such row, that is when
    every name and time of the ledger can be encoded, all rows are
    written and the handler ends with the information box; otherwise
    the handler ends with the error box and the file is left holding
    the header and the rows before that one.  A file that cannot be
    opened gives the error box and no file. *)
Theorem export_csv_file (data : dict) (path : str) :
  data <> [] -> path <> [] ->
  let rows := ZoomAttendance.export_rows data in
  let written := ZoomAttendance.header :: encodable_prefix rows in
  exists bytes later,
    utf_8_encode (concat (map (writerow excel) written)) = Some bytes /\
    utf_8_sig_decode (BOM_UTF8 ++ bytes) =
      Some (concat (map (writerow excel) written)) /\
    rows = encodable_prefix rows ++ later /\
    match later with
    | [] =>
        ZoomAttendance.export_csv data (Some path) true =
          ZoomAttendance.Saved path (BOM_UTF8 ++ bytes)
    | row :: _ =>
        row_encodable row = false /\
        ZoomAttendance.export_csv data (Some path) true =
          ZoomAttendance.ExportError path (Some (BOM_UTF8 ++ bytes))
    end /\
    (later = [] <->
       forall name times, In (name, times) data ->
         encodable name /\ Forall encodable times) /\
    ZoomAttendance.export_csv data (Some path) false =
      ZoomAttendance.ExportError path None.
Proof.
  intros Hd Hp rows written.
  destruct (export_csv_written Hd Hp)
    as [bytes [later [Hbytes [Hdec [Hsplit Hout]]]]].
  fold rows in Hsplit, Hout. fold written in Hbytes, Hdec.
  exists bytes, later.
  split; [exact Hbytes|]. split; [exact Hdec|]. split; [exact Hsplit|].
  split; [|split].
  - destruct later as [|row later]; [apply Hout|].
    destruct Hout as [Hrow [_ Hout]]. split; assumption.
  - rewrite <- rows_encodable_data. fold rows.
    destruct later as [|row later].
    + split; [intros _; apply Hout | reflexivity].
    + destruct Hout as [_ [Hall _]]. split; [discriminate | congruence].
  - unfold ZoomAttendance.export_csv.
    destruct data as [|item data]; [congruence|].
    destruct path as [|c path]; [congruence|]. reflexivity.
Qed.

Lemma export_csv_file_witness :
  let t := u "2024-05-01 10:00:00" in
  let data := [([55357; 65]%N, [t]); (u "Al", [t])] in
  let path := u "out.csv" in
  let rows := ZoomAttendance.export_rows data in
  let written := ZoomAttendance.header :: encodable_prefix rows in
  exists bytes later,
    utf_8_encode (concat (map (writerow excel) written)) = Some bytes /\
    utf_8_sig_decode (BOM_UTF8 ++ bytes) =
      Some (concat (map (writerow excel) written)) /\
    rows = encodable_prefix rows ++ later /\
    match later with
    | [] =>
        ZoomAttendance.export_csv data (Some path) true =
          ZoomAttendance.Saved path (BOM_UTF8 ++ bytes)
    | row :: _ =>
        row_encodable row = false /\
        ZoomAttendance.export_csv data (Some path) true =
          ZoomAttendance.ExportError path (Some (BOM_UTF8 ++ bytes))
    end /\
    (later = [] <->
       forall name times, In (name, times) data ->
         encodable name /\ Forall encodable times) /\
    ZoomAttendance.export_csv data (Some path) false =
      ZoomAttendance.ExportError path None.
Proof.
  intros t data path.
  apply (export_csv_file (data := data) (path := path)); discriminate.
Defined.

(** A failed export leaves a truncated file: the name of the second row
    holds a lone surrogate, and the file keeps the byte order mark, the
    header and the first row. *)
Example export_csv_truncated :
  let t := u "2024-05-01 10:00:00" in
  let data := [([55357; 65]%N, [t]); (u "Al", [t])] in
  match ZoomAttendance.export_csv data (Some (u "out.csv")) true with
  | ZoomAttendance.ExportError _ (Some file) =>
      length file = 105%nat /\
      option_map CsvReader.read (utf_8_sig_decode file) =
        Some (Some [map to_str ZoomAttendance.header; [u "Al"; t; u "1"; t]])
  | _ => False
  end.
Proof. vm_compute. split; reflexivity. Qed.

(** X16 -- The exported file read back.  When no field of the rows is
    longer than the reader's limit: a file that [export_csv] reports as
    saved decodes to the text of the whole export, which is read back as
    the header and one record per entry and parses into the (name,
    count) pairs of the ledger; a file left by a failed export decodes
    too, and is read back as the header and the rows written before the
    failure. *)
Theorem export_file_round_trip (data : dict) (path : str) :
  forallb fits (export_fields data) = true ->
  (forall file,
     ZoomAttendance.export_csv data (Some path) true =
       ZoomAttendance.Saved path file ->
     utf_8_sig_decode file = Some (ZoomAttendance.export_text data) /\
     CsvReader.read (ZoomAttendance.export_text data) =
       Some (map (map to_str)
               (ZoomAttendance.header :: ZoomAttendance.export_rows data)) /\
     exists pairs,
       parse_export (ZoomAttendance.export_text data) = Some pairs /\
       Permutation pairs (ledger_pairs data)) /\
  (forall file,
     ZoomAttendance.export_csv data (Some path) true =
       ZoomAttendance.ExportError path (Some file) ->
     exists text,
       utf_8_sig_decode file = Some text /\
       CsvReader.read text =
         Some (map (map to_str)
                 (ZoomAttendance.header ::
                  encodable_prefix (ZoomAttendance.export_rows data))) /\
       (length (encodable_prefix (ZoomAttendance.export_rows data)) <
        length data)%nat).
Proof.
  intros Hfit.
  assert (Hopen : forall outcome,
            ZoomAttendance.export_csv data (Some path) true = outcome ->
            outcome <> ZoomAttendance.NothingToExport ->
            outcome <> ZoomAttendance.ExportCancelled ->
            data <> [] /\ path <> []).
  { intros outcome <- Hn Hc. unfold ZoomAttendance.export_csv in Hn, Hc.
    destruct data as [|item data]; [exfalso; apply Hn; reflexivity|].
    destruct path as [|c path]; [exfalso; apply Hc; reflexivity|].
    split; discriminate. }
  pose proof (@export_fields_readable excel data (or_introl eq_refl) Hfit)
    as Hall.
  split.
  - intros file Hsaved.
    destruct (Hopen _ Hsaved) as [Hd Hp]; [discriminate | discriminate |].
    destruct (export_csv_written Hd Hp)
      as [bytes [later [Hbytes [Hdec [Hsplit Hout]]]]].
    destruct later as [|row later];
      [destruct Hout as [_ Hout] | destruct Hout as [_ [_ Hout]]; congruence].
    rewrite app_nil_r in Hsplit. rewrite <- Hsplit in Hdec.
    assert (file = BOM_UTF8 ++ bytes) by congruence. subst file.
    split; [exact Hdec|].
    destruct (@to_csv_round_trip excel data (or_introl eq_refl) Hfit)
      as [Hread Hparse].
    split; [exact Hread | exact Hparse].
  - intros file Herr.
    destruct (Hopen _ Herr) as [Hd Hp]; [discriminate | discriminate |].
    destruct (export_csv_written Hd Hp)
      as [bytes [later [Hbytes [Hdec [Hsplit Hout]]]]].
    destruct later as [|row later]; [destruct Hout; congruence|].
    destruct Hout as [_ [_ Hout]].
    assert (file = BOM_UTF8 ++ bytes) by congruence. subst file.
    eexists. split; [exact Hdec|]. split.
    + apply read_written; [left; reflexivity|].
      cbn [map] in Hall |- *. inversion Hall as [|h rs Hh Hrows]; subst.
      constructor; [exact Hh|].
      rewrite Hsplit, map_app in Hrows. apply Forall_app in Hrows.
      apply Hrows.
    + assert (Hlen : length (ZoomAttendance.export_rows data) = length data).
      { unfold ZoomAttendance.export_rows, dict_items. rewrite length_map.
        symmetry. apply Permutation_length, sorted_perm. }
      apply (f_equal (@length _)) in Hsplit.
      rewrite Hlen, length_app in Hsplit. cbn [length] in Hsplit. lia.
Qed.

Lemma export_file_round_trip_witness :
  let data := [([23665; 30000; 22826; 37070]%N, [u "2024-05-01 10:00:00"])] in
  exists file,
    ZoomAttendance.export_csv data (Some (u "out.csv")) true =
      ZoomAttendance.Saved (u "out.csv") file /\
    utf_8_sig_decode file = Some (ZoomAttendance.export_text data) /\
    exists pairs,
      parse_export (ZoomAttendance.export_text data) = Some pairs /\
      Permutation pairs (ledger_pairs data).
Proof.
  intros data.
  destruct (@export_csv_opened data (u "out.csv")) as [bytes [_ Hout]];
    [discriminate | discriminate |].
  change (forallb row_encodable (ZoomAttendance.export_rows data)) with true
    in Hout.
  exists (BOM_UTF8 ++ bytes). split; [exact Hout|].
  destruct (@export_file_round_trip data (u "out.csv") eq_refl) as [Hsaved _].
  destruct (Hsaved _ Hout) as [Hdec [_ Hpairs]].
  split; [exact Hdec | exact Hpairs].
Defined.

(** A Japanese name comes back from the bytes of the file. *)
Example export_file_japanese :
  let data := [([23665; 30000; 22826; 37070]%N, [u "2024-05-01 10:00:00"])] in
  match ZoomAttendance.export_csv data (Some (u "out.csv")) true with
  | ZoomAttendance.Saved _ file =>
      match utf_8_sig_decode file with
      | Some text => parse_export text
      | None => None
      end
  | _ => None
  end = Some [([23665; 30000; 22826; 37070]%N, 1%nat)].
Proof. vm_compute. reflexivity. Qed.

End FileBytes.
